(** * QR-Code-Maker: a shallow embedding of [src/qr_code_maker.py]

    The development follows the Python module function by function:
    - characters and strings (Python [str], restricted to the code points
      0..255, where the Unicode predicates [isalnum] and [isspace] are given
      by small tables);
    - [clean_filename];
    - the parts of the standard [textwrap.TextWrapper] that
      [create_full_page_image] calls with its default options;
    - fonts and [get_font];
    - the QR encoder adapter [create_qr_code];
    - the page composer [create_full_page_image] with its shrink-to-fit loop;
    - the batch driver [process_csv], with the calls of the file system
      that can end a run: [os.makedirs], [open] and [img.save];
    - [clean_url] and the single-entry worker of [main.py]. *)

From Stdlib Require Import Ascii String.
From Stdlib Require Import List ZArith Lia Bool Arith.
Import ListNotations.

Local Open Scope list_scope.

(** ** Characters and strings *)

(** A Python string is a sequence of code points; the model keeps the code
    points below 256, one [ascii] each. *)
#[warning="-notation-for-abbreviation"]
Notation str := (list ascii) (only parsing).

Definition lit (s : string) : str := list_ascii_of_string s.

Definition code (c : ascii) : nat := nat_of_ascii c.

Definition between (lo hi : nat) (c : ascii) : bool :=
  (lo <=? code c) && (code c <=? hi).

Definition is_char (n : nat) (c : ascii) : bool := code c =? n.

(** [str.isalnum] on one character: [isalpha], [isdecimal], [isdigit] or
    [isnumeric].  Below 256 these are the digits, the Latin letters, the
    ordinal indicators, the superscript digits, the micro sign, the vulgar
    fractions and the accented letters. *)
Definition isalnum (c : ascii) : bool :=
  between 48 57 c || between 65 90 c || between 97 122 c
  || is_char 170 c || between 178 179 c || is_char 181 c
  || between 185 186 c || between 188 190 c
  || between 192 214 c || between 216 246 c || between 248 255 c.

(** [str.isspace] on one character. *)
Definition isspace (c : ascii) : bool :=
  between 9 13 c || between 28 32 c || is_char 133 c || is_char 160 c.

Definition SPACE : ascii := " "%char.
Definition HYPHEN : ascii := "-"%char.
Definition UNDERSCORE : ascii := "_"%char.
Definition TAB : ascii := ascii_of_nat 9.

Fixpoint dropwhile (p : ascii -> bool) (s : str) : str :=
  match s with
  | [] => []
  | c :: s' => if p c then dropwhile p s' else s
  end.

(** [s.lstrip()], [s.rstrip()] and [s.strip()] without argument. *)
Definition lstrip (s : str) : str := dropwhile isspace s.
Definition rstrip (s : str) : str := rev (dropwhile isspace (rev s)).
Definition strip (s : str) : str := rstrip (lstrip s).

(** ** Exceptions

    A call either returns or raises.  [EncodingError] is the exception of
    the QR library for a payload it cannot encode, [InvalidWidth] the
    [ValueError] of [textwrap] for a width that is not positive,
    [InvalidSize] the [ValueError] of [Image.new] for a negative width or
    height, [OSError] what the file system raises ([OSError] and its
    subclasses, as [FileNotFoundError]), [ReadError] what decoding and
    parsing the CSV file raise, and [OutOfFuel] marks a loop of the model
    that was cut short. *)
Inductive exn :=
  | EncodingError
  | InvalidWidth
  | InvalidSize
  | OSError
  | ReadError
  | OutOfFuel.

Inductive result (A : Type) :=
  | Ok (a : A)
  | Raise (e : exn).
Arguments Ok {A} a.
Arguments Raise {A} e.

Definition bind {A B : Type} (r : result A) (k : A -> result B) : result B :=
  match r with
  | Ok a => k a
  | Raise e => Raise e
  end.

Notation "x <- r ;; k" := (bind r (fun x => k))
  (at level 61, r at next level, right associativity).
Notation "' p <- r ;; k" := (bind r (fun p => k))
  (at level 61, p pattern, r at next level, right associativity).

(** ** [clean_filename] *)

(** The test of the generator expression:
    [c.isalnum() or c in (' ', '_', '-')]. *)
Definition keep_char (c : ascii) : bool :=
  isalnum c || (Ascii.eqb c SPACE || Ascii.eqb c UNDERSCORE || Ascii.eqb c HYPHEN).

Definition clean_filename (text : str) : str :=
  rstrip (filter keep_char text).

(** ** [textwrap.TextWrapper] with its default options *)

Module TextWrap.

(** [_whitespace = '\t\n\x0b\x0c\r '] *)
Definition is_ws (c : ascii) : bool := between 9 13 c || is_char 32 c.

(** [text.expandtabs(tabsize)]: [line_pos] is the column, reset by a line
    feed or a carriage return. *)
Fixpoint expandtabs_from (tabsize line_pos : nat) (text : str) : str :=
  match text with
  | [] => []
  | c :: rest =>
      if is_char 9 c then
        if 0 <? tabsize then
          let incr := tabsize - line_pos mod tabsize in
          repeat SPACE incr ++ expandtabs_from tabsize (line_pos + incr) rest
        else expandtabs_from tabsize line_pos rest
      else
        c :: expandtabs_from tabsize
               (if is_char 10 c || is_char 13 c then 0 else S line_pos) rest
  end.

Definition expandtabs (tabsize : nat) (text : str) : str :=
  expandtabs_from tabsize 0 text.

(** [text.translate(unicode_whitespace_trans)] *)
Definition translate_ws (text : str) : str :=
  map (fun c => if is_ws c then SPACE else c) text.

(** [_munge_whitespace], with [expand_tabs], [replace_whitespace] and
    [tabsize = 8]. *)
Definition munge_whitespace (text : str) : str :=
  translate_ws (expandtabs 8 text).

(** *** The chunk splitter [wordsep_re]

    Character classes of the regular expression. *)
Definition is_word (c : ascii) : bool := isalnum c || is_char 95 c.      (* \w *)
Definition is_decimal (c : ascii) : bool := between 48 57 c.              (* \d *)
Definition is_letter (c : ascii) : bool := is_word c && negb (is_decimal c).
Definition is_word_punct (c : ascii) : bool :=
  is_word c || is_char 33 c || is_char 34 c || is_char 39 c
  || is_char 38 c || is_char 46 c || is_char 44 c || is_char 63 c.
Definition is_hyphen (c : ascii) : bool := is_char 45 c.

Fixpoint span_len (p : ascii -> bool) (s : str) : nat :=
  match s with
  | [] => 0
  | c :: s' => if p c then S (span_len p s') else 0
  end.

(** [(?= letter -? letter)] *)
Definition ahead_letters (rest : str) : bool :=
  match rest with
  | a :: b :: r =>
      is_letter a
      && (is_letter b
          || (is_hyphen b && match r with c :: _ => is_letter c | [] => false end))
  | _ => false
  end.

(** [(?<=letter{2}-) | (?<=letter-letter-)], seen from just before the
    hyphen: [before] is the text read so far, last character first. *)
Definition behind_hyphen (before : str) : bool :=
  match before with
  | p1 :: p2 :: t =>
      is_letter p1
      && (is_letter p2
          || (is_hyphen p2 && match t with p3 :: _ => is_letter p3 | [] => false end))
  | _ => false
  end.

(** [(?=-{2,}\w)] *)
Definition emdash_ahead (rest : str) : bool :=
  let n := span_len is_hyphen rest in
  (2 <=? n) && match skipn n rest with c :: _ => is_word c | [] => false end.

(** The third alternative, [nws+? (?: hyphenated | end of word | em-dash)],
    after at least one character has been taken: the number of further
    characters of the match.  [before] is the text read so far, last
    character first. *)
Fixpoint word_more (before rest : str) : nat :=
  match rest with
  | [] => 0
  | c :: r =>
      if is_hyphen c && behind_hyphen before && ahead_letters r then 1
      else if is_ws c then 0
      else if match before with p :: _ => is_word_punct p | [] => false end
              && emdash_ahead rest then 0
      else S (word_more (c :: before) r)
  end.

(** Length of the match of [wordsep_re] that starts at the head of [rest]. *)
Definition match_len (before rest : str) : nat :=
  match rest with
  | [] => 0
  | c :: r =>
      if is_ws c then span_len is_ws rest
      else if match before with p :: _ => is_word_punct p | [] => false end
              && emdash_ahead rest
           then span_len is_hyphen rest
      else S (word_more (c :: before) r)
  end.

(** [wordsep_re.split(text)] without the empty strings: the matches are
    adjacent, so the chunks are the successive matches. *)
Fixpoint split_from (fuel : nat) (before rest : str) : list str :=
  match fuel, rest with
  | _, [] => []
  | 0, _ => [rest]
  | S fuel', _ =>
      let n := match_len before rest in
      firstn n rest :: split_from fuel' (rev (firstn n rest) ++ before) (skipn n rest)
  end.

Definition split (text : str) : list str :=
  split_from (length text) [] text.

Definition split_chunks (text : str) : list str :=
  split (munge_whitespace text).

(** *** [_handle_long_word] and [_wrap_chunks] *)

(** [chunk.strip() == ''] *)
Definition blank (chunk : str) : bool := forallb isspace chunk.

(** [chunk.rfind('-', 0, stop)]: [None] stands for -1. *)
Fixpoint rfind_from (i : nat) (s : str) : option nat :=
  match s with
  | [] => None
  | c :: s' =>
      match rfind_from (S i) s' with
      | Some j => Some j
      | None => if is_hyphen c then Some i else None
      end
  end.

Definition rfind_hyphen (chunk : str) (stop : nat) : option nat :=
  rfind_from 0 (firstn stop chunk).

(** [_handle_long_word(reversed_chunks, cur_line, cur_len, width)] with
    [break_long_words] and [break_on_hyphens]; [chunk] is
    [reversed_chunks[-1]] and [chunks] the chunks after it; [break_point]
    is the index [end] at which the chunk is cut.  The function is called
    with [cur_len <= width], so that [width - cur_len] is not negative. *)
Definition break_point (chunk : str) (space_left : nat) : nat :=
  if space_left <? length chunk then
    match rfind_hyphen chunk space_left with
    | Some hyphen =>
        if (0 <? hyphen) && existsb (fun c => negb (is_hyphen c)) (firstn hyphen chunk)
        then hyphen + 1 else space_left
    | None => space_left
    end
  else space_left.

Definition handle_long_word (chunk : str) (chunks : list str)
    (cur_line : list str) (cur_len width : nat) : list str * list str :=
  let space_left := if width <? 1 then 1 else width - cur_len in
  let end_ := break_point chunk space_left in
  (cur_line ++ [firstn end_ chunk], skipn end_ chunk :: chunks).

(** The inner [while chunks:] loop: chunks are moved to the current line
    as long as they fit. *)
Fixpoint take_fitting (width : nat) (cur_line : list str) (cur_len : nat)
    (chunks : list str) : list str * nat * list str :=
  match chunks with
  | [] => (cur_line, cur_len, [])
  | c :: cs =>
      if cur_len + length c <=? width
      then take_fitting width (cur_line ++ [c]) (cur_len + length c) cs
      else (cur_line, cur_len, chunks)
  end.

(** One pass of the outer [while chunks:] loop, for non-empty [chunks]:
    the line built (as its chunks) and the chunks left. *)
Definition wrap_line (width : nat) (first_line : bool) (chunks : list str)
    : list str * list str :=
  let chunks1 :=
    match chunks with
    | c :: cs => if blank c && negb first_line then cs else chunks
    | [] => []
    end in
  let '(cur_line, cur_len, chunks2) := take_fitting width [] 0 chunks1 in
  let '(cur_line1, chunks3) :=
    match chunks2 with
    | c :: cs =>
        if width <? length c then handle_long_word c cs cur_line cur_len width
        else (cur_line, chunks2)
    | [] => (cur_line, chunks2)
    end in
  let cur_line2 :=
    match rev cur_line1 with
    | c :: before => if blank c then rev before else cur_line1
    | [] => cur_line1
    end in
  (cur_line2, chunks3).

(** The outer loop; the chunks are kept in reading order, the head being
    the top of the reversed stack of the source.  [None] is an exhausted
    fuel. *)
Fixpoint wrap_loop (fuel width : nat) (lines : list str) (chunks : list str)
    : option (list str) :=
  match chunks with
  | [] => Some lines
  | _ :: _ =>
      match fuel with
      | 0 => None
      | S fuel' =>
          let '(cur_line, chunks') :=
            wrap_line width (match lines with [] => true | _ => false end) chunks in
          let lines' :=
            match cur_line with
            | [] => lines
            | _ :: _ => lines ++ [concat cur_line]
            end in
          wrap_loop fuel' width lines' chunks'
      end
  end.

(** Every pass removes a chunk or shortens one. *)
Definition weight (chunks : list str) : nat :=
  length chunks + length (concat chunks).

(** [_wrap_chunks(chunks)]; a width that is not positive raises
    [ValueError], which no caller of this program can provoke (the widths
    are the constants 30 and 60). *)
Definition wrap_chunks (width : nat) (chunks : list str) : result (list str) :=
  if width =? 0 then Raise InvalidWidth
  else match wrap_loop (S (weight chunks)) width [] chunks with
       | Some lines => Ok lines
       | None => Raise OutOfFuel
       end.

(** [TextWrapper(width=width).wrap(text)] *)
Definition wrap (width : nat) (text : str) : result (list str) :=
  wrap_chunks width (split_chunks text).

End TextWrap.

(** ** Fonts, the QR library and the file system

    [World] collects what the module asks of its surroundings:
    [os.path.exists], [ImageFont.truetype] ([None] is its [IOError]),
    [ImageFont.load_default()], [segno.make(url, error='H')] ([None] is
    the exception it raises for a payload it cannot encode),
    [os.makedirs(path)] ([false] is its [OSError]), reading the rows of a
    CSV file ([open] followed by [list(csv.reader(csvfile))]) and
    [img.save(os.path.join(save_to_dir, filename), ...)] ([false] is its
    [OSError], as for a file name that the file system refuses). *)

Local Open Scope Z_scope.

Definition BBox : Type := Z * Z * Z * Z.

Record Font := { getbbox : str -> BBox }.

(** A QR symbol of the given version has [4 * version + 17] modules a
    side; level H excludes the Micro QR symbols, so the default quiet zone
    is 4 modules. *)
Record QRCode := { version : nat }.

Record World := {
  path_exists : str -> bool;
  truetype : str -> Z -> option Font;
  load_default : Font;
  segno_make : str -> option QRCode;
  makedirs : str -> bool;
  read_csv : str -> result (list (list str));
  save_png : str -> str -> bool
}.

(** [bbox[2] - bbox[0]] and [bbox[3] - bbox[1]] *)
Definition line_width (font : Font) (line : str) : Z :=
  let '(x0, _, x1, _) := getbbox font line in x1 - x0.

Definition line_height (font : Font) (line : str) : Z :=
  let '(_, y0, _, y1) := getbbox font line in y1 - y0.

(** [get_font(font_path, font_size)] *)
Definition get_font (w : World) (font_path : option str) (font_size : Z) : Font :=
  match font_path with
  | None => load_default w
  | Some path =>
      if negb (path_exists w path) then load_default w
      else match truetype w path font_size with
           | Some font => font
           | None => load_default w
           end
  end.

(** ** [create_qr_code] *)

Record Image := { width : Z; height : Z }.

(** [qr.symbol_size(scale, border)] *)
Definition symbol_size (qr : QRCode) (scale border : Z) : Z * Z :=
  let side := (4 * Z.of_nat (version qr) + 17 + 2 * border) * scale in
  (side, side).

(** The two assignments to [scale]. *)
Definition qr_scale (qr : QRCode) (qr_size : Z) : Z :=
  let '(width, _) := symbol_size qr 1 4 in
  let scale := qr_size / width in
  Z.max scale 1.

(** [qr.save(buffer, kind='png', scale=scale, ..., border=4)] read back
    with [Image.open]. *)
Definition create_qr_code (w : World) (url : str) (qr_size : Z) : result Image :=
  match segno_make w url with
  | None => Raise EncodingError
  | Some qr =>
      let scale := qr_scale qr qr_size in
      let '(width, height) := symbol_size qr scale 4 in
      Ok {| width := width; height := height |}
  end.

(** ** [create_full_page_image] *)

(** A line of text drawn at height [y]; the source centres it at the
    abscissa [(page_size[0] - line_width) / 2], of which the record keeps
    the numerator. *)
Record DrawnLine := {
  text : str;
  twice_x : Z;
  y : Z
}.

Record Page := {
  size : Z * Z;
  title_lines : list DrawnLine;
  qr_box : Z * Z;           (* where the bordered QR code is pasted *)
  qr_box_size : Z * Z;
  url_font_size : Z;
  url_lines : list DrawnLine
}.

(** The loops [for line in wrapped: ... draw.text ...; current_y += line_height + gap]. *)
Fixpoint draw_lines (font : Font) (page_width gap current_y : Z) (lines : list str)
    : list DrawnLine * Z :=
  match lines with
  | [] => ([], current_y)
  | line :: rest =>
      let d := {| text := line;
                  twice_x := page_width - line_width font line;
                  y := current_y |} in
      let '(ds, y') := draw_lines font page_width gap
                         (current_y + (line_height font line + gap)) rest in
      (d :: ds, y')
  end.

(** The [for line in wrapped_url:] loop of the shrink-to-fit pass, with
    its [break]. *)
Fixpoint lines_fit (font : Font) (max_text_width font_size : Z) (lines : list str) : bool :=
  match lines with
  | [] => true
  | line :: rest =>
      if (max_text_width <? line_width font line) && (40 <? font_size) then false
      else lines_fit font max_text_width font_size rest
  end.

Section Composer.

Variable w : World.
Variable font_path : option str.

(** The [while True:] loop; one unit of [fuel] is one pass. *)
Fixpoint fit_loop (fuel : nat) (url : str) (max_text_width font_size : Z)
    (wrapped_url : list str) : result (Z * list str) :=
  match fuel with
  | O => Raise OutOfFuel
  | S fuel' =>
      let url_font := get_font w font_path font_size in
      let fits := lines_fit url_font max_text_width font_size wrapped_url in
      if fits || (font_size <=? 40) then Ok (font_size, wrapped_url)
      else
        wrapped_url' <- TextWrap.wrap 60 url ;;
        fit_loop fuel' url max_text_width (font_size - 2) wrapped_url'
  end.

(** Passes that are enough from the font size [font_size]. *)
Definition passes_from (font_size : Z) : nat :=
  S (Z.to_nat ((font_size - 39) / 2)).

(** Lines 142-163: wrap the URL, then shrink the font until it fits. *)
Definition fit_url (url : str) (max_text_width url_font_size : Z)
    : result (Z * list str) :=
  wrapped_url <- TextWrap.wrap 60 url ;;
  fit_loop (passes_from url_font_size) url max_text_width url_font_size wrapped_url.

(** [Image.new('RGBA', page_size, ...)] of line 83 comes first: it raises
    for a negative width or height. *)
Definition create_full_page_image (title url : str) (page_size : Z * Z) : result Page :=
  if (fst page_size <? 0) || (snd page_size <? 0) then Raise InvalidSize else
  let top_margin := 300 in
  let side_margin := 300 in
  let title_font_size := 150 in
  let url_font_size := 80 in
  let title_font := get_font w font_path title_font_size in
  let max_text_width := fst page_size - 2 * side_margin in
  wrapped_title <- TextWrap.wrap 30 title ;;
  let '(title_drawn, current_y) :=
    draw_lines title_font (fst page_size) 20 top_margin wrapped_title in
  img_qr <- create_qr_code w url 2000 ;;
  let qr_x := (fst page_size - width img_qr) / 2 in
  let qr_y := current_y + 100 in
  let border_size := 20 in
  let bordered_qr_size :=
    (width img_qr + 2 * border_size, height img_qr + 2 * border_size) in
  let current_y := qr_y + snd bordered_qr_size + 100 in
  '(font_size, wrapped_url) <- fit_url url max_text_width url_font_size ;;
  let url_font := get_font w font_path font_size in
  let '(url_drawn, _) :=
    draw_lines url_font (fst page_size) 10 current_y wrapped_url in
  Ok {| size := page_size;
        title_lines := title_drawn;
        qr_box := (qr_x - border_size, qr_y - border_size);
        qr_box_size := bordered_qr_size;
        url_font_size := font_size;
        url_lines := url_drawn |}.

End Composer.

(** The default [page_size=(2550, 3300)]. *)
Definition letter_page : Z * Z := (2550, 3300).

(** ** [process_csv] *)

(** What a run does, in order: the two kinds of skipped rows, the calls
    of [create_full_page_image] and the files written. *)
Inductive Event :=
  | SkipInvalid (index : nat) (entry : list str)
  | SkipEmptyUrl (index : nat) (title : str)
  | Compose (title url : str)
  | Save (filename : str) (img : Page).

(** [if not font_path: font_path = None] *)
Definition font_path_of (font_path : str) : option str :=
  match font_path with
  | [] => None
  | _ :: _ => Some font_path
  end.

(** The body of [for index, entry in enumerate(entries, start=1):]; the
    events so far are threaded through, and an exception, of the composer
    or of [img.save], ends the run.  A [Save] event is a file written. *)
Fixpoint process_entries (w : World) (save_to_dir : str) (font_path : option str)
    (index : nat) (entries : list (list str)) (log : list Event)
    : list Event * result unit :=
  match entries with
  | [] => (log, Ok tt)
  | entry :: rest =>
      match entry with
      | title0 :: url0 :: _ =>
          let title := strip title0 in
          let url := strip url0 in
          match url with
          | [] => process_entries w save_to_dir font_path (S index) rest
                    (log ++ [SkipEmptyUrl index title])
          | _ :: _ =>
              match create_full_page_image w font_path title url letter_page with
              | Raise e => (log ++ [Compose title url], Raise e)
              | Ok img =>
                  let clean_title := clean_filename title in
                  let filename := (clean_title ++ lit ".png")%list in
                  if save_png w save_to_dir filename then
                    process_entries w save_to_dir font_path (S index) rest
                      (log ++ [Compose title url; Save filename img])
                  else (log ++ [Compose title url], Raise OSError)
              end
          end
      | _ => process_entries w save_to_dir font_path (S index) rest
               (log ++ [SkipInvalid index entry])
      end
  end.

(** The loop of [process_csv] (lines 208-226), from the rows that
    [csv.reader] returns. *)
Definition process_csv (w : World) (entries : list (list str))
    (save_to_dir font_path : str) : list Event * result unit :=
  process_entries w save_to_dir (font_path_of font_path) 1 entries [].

(** The whole of [process_csv(file_path, save_to_dir, font_path)]: the
    output directory is created when it does not exist, the file is read,
    and the loop runs over its rows.  An exception of [os.makedirs], of
    [open] or of the reader ends the run before the first row. *)
Definition process_csv_file (w : World) (file_path save_to_dir font_path : str)
    : list Event * result unit :=
  if negb (path_exists w save_to_dir) && negb (makedirs w save_to_dir)
  then ([], Raise OSError)
  else match read_csv w file_path with
       | Raise e => ([], Raise e)
       | Ok entries => process_csv w entries save_to_dir font_path
       end.

(** ** Vocabulary of the statements *)

Local Close Scope Z_scope.

Definition starts_with_space (s : str) : bool :=
  match s with
  | c :: _ => isspace c
  | [] => false
  end.

Definition ends_with_space (s : str) : bool := starts_with_space (rev s).

(** The characters a file name may keep. *)
Definition filename_char (c : ascii) : Prop :=
  isalnum c = true \/ c = SPACE \/ c = UNDERSCORE \/ c = HYPHEN.

(** A title of which sanitization leaves nothing but whitespace; a title
    whose characters are all removed is the case of an empty remainder. *)
Definition sanitizes_to_blank (title : str) : Prop :=
  Forall (fun c => isspace c = true) (filter keep_char title).

(** [symbol_size(scale=1)] of the source: the side of the symbol with
    its quiet zone, in modules. *)
Definition native_width (qr : QRCode) : Z := fst (symbol_size qr 1 4).

(** ** A world for the examples

    The encoder follows the capacity rule of the QR standard at level H.
    The mode of the payload is found as the library finds it, from its
    bytes: numeric for digits only, alphanumeric for the 45 characters of
    that mode, kanji for pairs of bytes in the two Shift JIS ranges, byte
    mode otherwise.  A symbol of a version holds the payload when the mode
    indicator (4 bits), the character count and the data fit in its data
    codewords; the encoder takes the first version that does, so the empty
    payload gets version 1, and it rejects a payload that no version
    holds (in byte mode, more than 1273 bytes).  The default font is a
    fixed-pitch bitmap; the only font file, [font.ttf], scales with the
    requested size.  The file system creates every directory, holds one
    CSV file, [entries.csv], and refuses a file name of more than 255
    bytes. *)
Definition data_codewords_H : list nat :=
  [9; 16; 26; 36; 46; 60; 66; 86; 100; 122;
   140; 158; 180; 197; 223; 253; 283; 313; 341; 385;
   406; 442; 464; 514; 538; 596; 628; 661; 701; 745;
   793; 845; 901; 961; 986; 1054; 1096; 1142; 1222; 1276].

Inductive Mode := Numeric | Alphanumeric | Kanji | Byte.

(** [0-9A-Z $%*+-./:] *)
Definition is_alphanumeric_char (c : ascii) : bool :=
  between 48 57 c || between 65 90 c || is_char 32 c || between 36 37 c
  || between 42 43 c || between 45 47 c || is_char 58 c.

Fixpoint is_kanji (data : str) : bool :=
  match data with
  | [] => true
  | hi :: lo :: rest =>
      let pair := (256 * Z.of_nat (code hi) + Z.of_nat (code lo))%Z in
      (((33088 <=? pair) && (pair <=? 40956))
       || ((57408 <=? pair) && (pair <=? 60351)))%Z
      && is_kanji rest
  | [_] => false
  end.

Definition find_mode (data : str) : Mode :=
  match data with
  | [] => Byte
  | _ :: _ =>
      if forallb (between 48 57) data then Numeric
      else if forallb is_alphanumeric_char data then Alphanumeric
      else if is_kanji data then Kanji
      else Byte
  end.

(** The bits of the character count, by mode and version. *)
Definition char_count_bits (mode : Mode) (v : nat) : nat :=
  let pick (small medium large : nat) :=
    if v <=? 9 then small else if v <=? 26 then medium else large in
  match mode with
  | Numeric => pick 10 12 14
  | Alphanumeric => pick 9 11 13
  | Byte => pick 8 16 16
  | Kanji => pick 8 10 12
  end.

(** The bits of the data, by mode, for a payload of [n] bytes. *)
Definition data_bits (mode : Mode) (n : nat) : nat :=
  match mode with
  | Numeric => 10 * (n / 3) + match n mod 3 with 0 => 0 | 1 => 4 | _ => 7 end
  | Alphanumeric => 11 * (n / 2) + 6 * (n mod 2)
  | Byte => 8 * n
  | Kanji => 13 * (n / 2)
  end.

Fixpoint first_fit (bits : nat -> nat) (v : nat) (codewords : list nat) : option nat :=
  match codewords with
  | [] => None
  | cw :: rest => if bits v <=? 8 * cw then Some v else first_fit bits (S v) rest
  end.

Definition example_make (url : str) : option QRCode :=
  let mode := find_mode url in
  let bits v := 4 + char_count_bits mode v + data_bits mode (length url) in
  match first_fit bits 1 data_codewords_H with
  | Some v => Some {| version := v |}
  | None => None
  end.

(** Five rows for the examples: one with a single column, one with a
    blank URL and three valid ones. *)
Definition five_rows : list (list str) :=
  [ [lit "Event Registration"; lit "https://example.com/register"];
    [lit "Invalid Entry"];
    [lit "Survey Link"; lit "https://example.com/survey"];
    [lit "Event No URL"; lit "  "];
    [lit "Website"; lit "https://example.com"] ].

Definition bitmap_font : Font :=
  {| getbbox := fun line => (0, 0, 6 * Z.of_nat (length line), 11)%Z |}.

Definition scaled_font (font_size : Z) : Font :=
  {| getbbox := fun line =>
       (0, 0, font_size * Z.of_nat (length line) / 2, font_size)%Z |}.

Definition example_world : World :=
  {| path_exists := fun path => if list_eq_dec ascii_dec path (lit "font.ttf")
                                then true else false;
     truetype := fun _ font_size => Some (scaled_font font_size);
     load_default := bitmap_font;
     segno_make := example_make;
     makedirs := fun _ => true;
     read_csv := fun file_path =>
       if list_eq_dec ascii_dec file_path (lit "entries.csv")
       then Ok five_rows else Raise OSError;
     save_png := fun _ filename => (length filename <=? 255)%nat |}.

(** The paths on which [get_font] falls back to the default font: no
    font path, a path that does not exist, a file that does not load. *)
Definition fallback (w : World) (font_path : option str) : Prop :=
  font_path = None
  \/ exists path, font_path = Some path
       /\ (path_exists w path = false \/ forall font_size, truetype w path font_size = None).

(** The rows that [process_csv] does not skip: at least two columns and
    a second column that is not empty once stripped. *)
Definition valid_row (entry : list str) : bool :=
  match entry with
  | _ :: url0 :: _ => match strip url0 with [] => false | _ :: _ => true end
  | _ => false
  end.

(** The arguments [title, url] of the composition call for a row. *)
Definition row_call (entry : list str) : str * str :=
  match entry with
  | title0 :: url0 :: _ => (strip title0, strip url0)
  | _ => ([], [])
  end.

(** The composition calls of a run, the rows it skipped (by index) and the
    files it wrote, each in order. *)
Definition calls (log : list Event) : list (str * str) :=
  flat_map (fun e => match e with Compose title url => [(title, url)] | _ => [] end) log.

Definition skipped (log : list Event) : list nat :=
  flat_map (fun e => match e with
                     | SkipInvalid index _ | SkipEmptyUrl index _ => [index]
                     | _ => []
                     end) log.

Definition saved (log : list Event) : list str :=
  flat_map (fun e => match e with Save filename _ => [filename] | _ => [] end) log.

(** The indices, counted from [index], of the rows that are not valid. *)
Fixpoint invalid_rows (index : nat) (entries : list (list str)) : list nat :=
  match entries with
  | [] => []
  | entry :: rest =>
      if valid_row entry then invalid_rows (S index) rest
      else index :: invalid_rows (S index) rest
  end.

(** The composition of a row returns a page. *)
Definition composes (w : World) (font_path : option str) (entry : list str) : Prop :=
  exists page,
    create_full_page_image w font_path (fst (row_call entry)) (snd (row_call entry))
      letter_page = Ok page.

(** A URL of 1274 characters, one more than the largest symbol holds. *)
Definition oversized_url : str := repeat "a"%char 1274.

(** ** Words and chunks *)

(** The words of a text: its maximal runs of characters that are not
    whitespace (of [textwrap._whitespace]). *)
Fixpoint words (s : str) : list str :=
  match s with
  | [] => []
  | c :: s' =>
      if TextWrap.is_ws c then words s'
      else match s' with
           | c' :: _ =>
               if TextWrap.is_ws c' then [c] :: words s'
               else match words s' with
                    | wd :: wds => (c :: wd) :: wds
                    | [] => [[c]]
                    end
           | [] => [[c]]
           end
  end.

(** A character that the splitter treats as plain text or plain
    whitespace: no hyphen, and no space character outside
    [textwrap._whitespace] (such as the no-break space). *)
Definition plain_char (c : ascii) : Prop :=
  TextWrap.is_hyphen c = false /\ (TextWrap.is_ws c = true \/ isspace c = false).

(** Chunks of whitespace and chunks of a word. *)
Definition space_chunk (c : str) : Prop :=
  c <> [] /\ Forall (fun ch => TextWrap.is_ws ch = true) c.

Definition word_chunk (c : str) : Prop :=
  c <> [] /\ Forall (fun ch => isspace ch = false) c.

(** A list of chunks in which every word is one chunk: a chunk of a word
    is followed by whitespace. *)
Fixpoint tidy (chunks : list str) : Prop :=
  match chunks with
  | [] => True
  | c :: rest =>
      (space_chunk c
       \/ (word_chunk c /\ match rest with
                           | c' :: _ => space_chunk c'
                           | [] => True
                           end))
      /\ tidy rest
  end.

(** The last chunk ends with a character that is not a space. *)
Definition tail_solid (chunks : list str) : Prop :=
  match rev chunks with
  | c :: _ => c <> [] /\ ends_with_space c = false
  | [] => False
  end.

(** The first chunk starts with a character that is not a space. *)
Definition head_solid (chunks : list str) : Prop :=
  match chunks with
  | c :: _ => c <> [] /\ starts_with_space c = false
  | [] => False
  end.

(** ** [clean_url]

    [urlparse] is the standard parser; of its result the function reads
    [netloc] and [path].  [None] is the [ValueError] that the parser raises
    for a malformed host. *)
Record ParseResult := { netloc : str; path : str }.

(** [string.punctuation] *)
Definition is_punctuation (c : ascii) : bool :=
  between 33 47 c || between 58 64 c || between 91 96 c || between 123 126 c.

(** [s.translate(str.maketrans('', '', string.punctuation))] *)
Definition remove_punctuation (s : str) : str :=
  filter (fun c => negb (is_punctuation c)) s.

(** [s.strip(chars)] and [s.rstrip(chars)] for a set of characters. *)
Definition rstrip_chars (p : ascii -> bool) (s : str) : str :=
  rev (dropwhile p (rev s)).

Definition strip_chars (p : ascii -> bool) (s : str) : str :=
  rstrip_chars p (dropwhile p s).

Definition clean_url (urlparse : str -> option ParseResult) (url : str) : option str :=
  match urlparse url with
  | None => None
  | Some parsed_url =>
      let clean_path :=
        remove_punctuation (strip_chars (is_char 47) (path parsed_url)) in
      let clean_netloc := remove_punctuation (netloc parsed_url) in
      Some (rstrip_chars (is_char 95) (clean_netloc ++ UNDERSCORE :: clean_path))
  end.

(** ** The single-entry worker of [main.py]

    [_process_single_thread] composes one page and saves it; whatever is
    raised, by the composer or by [img.save], is caught and reported.  The
    font path comes as a string, empty when no custom font is chosen, and
    goes to [get_font] as it is. *)
Inductive Report :=
  | Success (filename : str) (img : Page)
  | Failure (e : exn).

Definition process_single_thread (w : World) (title url save_dir font_path : str)
    : Report :=
  match create_full_page_image w (Some font_path) title url letter_page with
  | Ok img =>
      let clean_title := clean_filename title in
      let filename := clean_title ++ lit ".png" in
      if save_png w save_dir filename then Success filename img
      else Failure OSError
  | Raise e => Failure e
  end.

(** ** More vocabulary *)

(** The file name that [process_csv] gives to the page of a call. *)
Definition png_name (call : str * str) : str :=
  clean_filename (fst call) ++ lit ".png".

(** The file of a row is written: [img.save] returns for its name. *)
Definition saves (w : World) (save_to_dir : str) (entry : list str) : Prop :=
  save_png w save_to_dir (png_name (row_call entry)) = true.

(** The page of a row is composed and saved without an exception. *)
Definition completes (w : World) (save_to_dir : str) (font_path : option str)
    (entry : list str) : Prop :=
  composes w font_path entry /\ saves w save_to_dir entry.

(** A title of 300 characters: its file name has 304 bytes. *)
Definition long_title : str := repeat "a"%char 300.

(** [bbox[1]] and [bbox[3]]: [draw.text((x, y), line, font=font)] puts
    the ink of the line between the heights [y + bbox[1]] and
    [y + bbox[3]]. *)
Definition bbox_top (font : Font) (line : str) : Z :=
  let '(_, y0, _, _) := getbbox font line in y0.

Definition bbox_bottom (font : Font) (line : str) : Z :=
  let '(_, _, _, y1) := getbbox font line in y1.

Definition ink_top (font : Font) (d : DrawnLine) : Z :=
  (y d + bbox_top font (text d))%Z.

Definition ink_bottom (font : Font) (d : DrawnLine) : Z :=
  (y d + bbox_bottom font (text d))%Z.

(** A default font whose ink starts 40 pixels below the drawing position,
    with the box of a line of a TrueType font at size 150, and the example
    world with that default font. *)
Definition offset_font : Font :=
  {| getbbox := fun line => (0, 40, 72 * Z.of_nat (length line), 178)%Z |}.

Definition offset_world : World :=
  {| path_exists := path_exists example_world;
     truetype := truetype example_world;
     load_default := offset_font;
     segno_make := segno_make example_world;
     makedirs := makedirs example_world;
     read_csv := read_csv example_world;
     save_png := save_png example_world |}.

(** The characters of a text that are not spaces, in order. *)
Definition solid_chars (s : str) : str :=
  filter (fun c => negb (isspace c)) s.

(** The text of the title block and of the URL block of a page. *)
Definition title_text (page : Page) : list str := map text (title_lines page).
Definition url_text (page : Page) : list str := map text (url_lines page).

(** A text cut into pieces of [width] characters, the last one possibly
    shorter; [fuel] bounds the number of pieces. *)
Fixpoint cut (fuel width : nat) (s : str) : list str :=
  match fuel with
  | 0 => []
  | S fuel' =>
      match s with
      | [] => []
      | _ :: _ =>
          if length s <=? width then [s]
          else firstn width s :: cut fuel' width (skipn width s)
      end
  end.

(** A character of a word that the wrapper can only break by length:
    neither a space nor a hyphen. *)
Definition unbreakable_char (c : ascii) : Prop :=
  isspace c = false /\ TextWrap.is_hyphen c = false.

(** The last step of a pass of [_wrap_chunks]: a trailing blank chunk is
    dropped from the line. *)
Definition drop_trailing_blank (cur_line1 : list str) : list str :=
  match rev cur_line1 with
  | l :: before => if TextWrap.blank l then rev before else cur_line1
  | [] => cur_line1
  end.

(** The text starts with a character that is not whitespace. *)
Definition starts_solid (s : str) : bool :=
  match s with
  | c :: _ => negb (TextWrap.is_ws c)
  | [] => false
  end.

Definition not_blank (c : str) : bool := negb (TextWrap.blank c).

(** The chunks that are not blank are not longer than the width. *)
Definition words_fit (width : nat) (chunks : list str) : Prop :=
  Forall (fun x => TextWrap.blank x = false -> length x <= width) chunks.

Definition solid (c : ascii) : bool := negb (TextWrap.is_ws c).

(** A text as [strip] leaves it: no space at its start or at its end. *)
Definition trimmed (s : str) : Prop :=
  starts_with_space s = false /\ ends_with_space s = false.

(** * Properties *)

(** ** Characters *)

Lemma keep_char_spec (c : ascii) : keep_char c = true <-> filename_char c.
Proof.
  unfold keep_char, filename_char. rewrite !orb_true_iff.
  rewrite !Ascii.eqb_eq. tauto.
Qed.

Lemma kept_space_is_space (c : ascii) :
  keep_char c = true -> isspace c = true -> c = SPACE.
Proof.
  destruct c as [[] [] [] [] [] [] [] []]; vm_compute; intros H1 H2;
    first [ reflexivity | discriminate ].
Qed.

Lemma is_ws_isspace (c : ascii) : TextWrap.is_ws c = true -> isspace c = true.
Proof.
  destruct c as [[] [] [] [] [] [] [] []]; vm_compute; intros H;
    first [ reflexivity | discriminate ].
Qed.

(** ** Stripping *)

Lemma dropwhile_head (p : ascii -> bool) (s : str) :
  match dropwhile p s with
  | c :: _ => p c = false
  | [] => True
  end.
Proof.
  induction s as [|c s IH]; simpl; [exact I|].
  destruct (p c) eqn:E; [exact IH | exact E].
Qed.

Lemma dropwhile_incl (p : ascii -> bool) (s : str) (c : ascii) :
  In c (dropwhile p s) -> In c s.
Proof.
  induction s as [|a s IH]; simpl; [tauto|].
  destruct (p a); simpl; tauto.
Qed.

Lemma dropwhile_all (p : ascii -> bool) (s : str) :
  Forall (fun c => p c = true) s -> dropwhile p s = [].
Proof.
  induction 1 as [|c s Hc _ IH]; simpl; [reflexivity|].
  now rewrite Hc.
Qed.

Lemma dropwhile_id (p : ascii -> bool) (s : str) :
  match s with c :: _ => p c = false | [] => True end -> dropwhile p s = s.
Proof.
  destruct s as [|c s]; simpl; [reflexivity|]. now intros ->.
Qed.

Lemma rstrip_incl (s : str) (c : ascii) : In c (rstrip s) -> In c s.
Proof.
  unfold rstrip. rewrite <- in_rev. intros H.
  apply dropwhile_incl in H. now apply in_rev.
Qed.

Lemma strip_incl (s : str) (c : ascii) : In c (strip s) -> In c s.
Proof.
  unfold strip, lstrip. intros H.
  apply rstrip_incl in H. now apply dropwhile_incl in H.
Qed.

Lemma rstrip_no_trailing_space (s : str) : ends_with_space (rstrip s) = false.
Proof.
  unfold ends_with_space, rstrip. rewrite rev_involutive.
  pose proof (dropwhile_head isspace (rev s)) as H.
  destruct (dropwhile isspace (rev s)); simpl; [reflexivity | exact H].
Qed.

Lemma rstrip_blank (s : str) :
  Forall (fun c => isspace c = true) s -> rstrip s = [].
Proof.
  intros H. unfold rstrip.
  rewrite dropwhile_all; [reflexivity|]. now apply Forall_rev.
Qed.

Lemma strip_fixed (s : str) :
  starts_with_space s = false -> ends_with_space s = false -> strip s = s.
Proof.
  unfold strip, lstrip, rstrip, ends_with_space, starts_with_space.
  intros H1 H2.
  rewrite (dropwhile_id isspace s) by (destruct s; [exact I | exact H1]).
  rewrite (dropwhile_id isspace (rev s)) by (destruct (rev s); [exact I | exact H2]).
  apply rev_involutive.
Qed.

(** ** [clean_filename] *)

Lemma clean_filename_chars (text : str) :
  Forall filename_char (clean_filename text).
Proof.
  apply Forall_forall. intros c H.
  apply rstrip_incl, filter_In in H. now apply keep_char_spec.
Qed.

Lemma clean_filename_of_blank (title : str) :
  sanitizes_to_blank title -> clean_filename title = [].
Proof.
  intros H. unfold clean_filename. now apply rstrip_blank.
Qed.

Lemma sanitizes_to_blank_strip (title : str) :
  sanitizes_to_blank title -> sanitizes_to_blank (strip title).
Proof.
  unfold sanitizes_to_blank. rewrite !Forall_forall. intros H c Hc.
  apply filter_In in Hc. destruct Hc as [Hin Hk].
  apply H, filter_In. split; [now apply strip_incl | exact Hk].
Qed.

(** C3, as the code has it: the result of [clean_filename] holds only
    alphanumeric characters, spaces, underscores and hyphens, and it does
    not end with whitespace.  (Only [rstrip] is applied: whitespace at the
    start of the result stays.) *)
Theorem clean_filename_sanitized (text : str) :
  Forall filename_char (clean_filename text)
  /\ ends_with_space (clean_filename text) = false.
Proof.
  split; [apply clean_filename_chars | apply rstrip_no_trailing_space].
Qed.

(** C3 as stated fails: the title [" a"] is not empty and its file name
    starts with a space. *)
Lemma clean_filename_keeps_leading_space :
  ~ (forall text : str, text <> [] ->
       Forall filename_char (clean_filename text)
       /\ starts_with_space (clean_filename text) = false
       /\ ends_with_space (clean_filename text) = false).
Proof.
  intros H. destruct (H (lit " a")) as (_ & H1 & _); [discriminate|].
  vm_compute in H1. discriminate.
Qed.

(** ** Wrapping: termination and line lengths *)

Module WrapFacts.
Import TextWrap.

Lemma weight_cons (c : str) (cs : list str) :
  weight (c :: cs) = S (length c + weight cs).
Proof. unfold weight; simpl. rewrite length_app. lia. Qed.

Lemma weight_app (xs ys : list str) : weight (xs ++ ys) = weight xs + weight ys.
Proof.
  induction xs as [|x xs IH]; [reflexivity|].
  simpl app. rewrite !weight_cons, IH. lia.
Qed.

Lemma rfind_from_bounds (s : str) : forall i j,
  rfind_from i s = Some j -> i <= j < i + length s.
Proof.
  induction s as [|c s IH]; simpl; intros i j H; [discriminate|].
  destruct (rfind_from (S i) s) as [k|] eqn:E.
  - inversion H; subst. apply IH in E. lia.
  - destruct (is_hyphen c); inversion H; subst. lia.
Qed.

Lemma break_point_le (chunk : str) (space_left : nat) :
  break_point chunk space_left <= space_left.
Proof.
  unfold break_point. destruct (space_left <? length chunk); [|lia].
  unfold rfind_hyphen.
  destruct (rfind_from 0 (firstn space_left chunk)) as [h|] eqn:E; [|lia].
  apply rfind_from_bounds in E. rewrite length_firstn in E.
  destruct (_ && _); lia.
Qed.

Lemma break_point_pos (chunk : str) (space_left : nat) :
  0 < space_left -> 0 < break_point chunk space_left.
Proof.
  unfold break_point. intros H. destruct (space_left <? length chunk); [|lia].
  destruct (rfind_hyphen chunk space_left) as [h|]; [|lia].
  destruct (_ && _); lia.
Qed.

(** What the inner loop returns: the chunks taken, in order, and the
    first chunk that does not fit. *)
Lemma take_fitting_spec (width : nat) : forall chunks cur_line cur_len cl len chunks',
  take_fitting width cur_line cur_len chunks = (cl, len, chunks') ->
  exists taken,
    cl = cur_line ++ taken
    /\ chunks = taken ++ chunks'
    /\ len = cur_len + length (concat taken)
    /\ (taken = [] \/ len <= width)
    /\ match chunks' with
       | c :: _ => width < len + length c
       | [] => True
       end.
Proof.
  induction chunks as [|c cs IH]; simpl; intros cur_line cur_len cl len chunks' H.
  - inversion H; subst. exists []. rewrite app_nil_r. simpl. intuition lia.
  - destruct (cur_len + length c <=? width) eqn:E.
    + apply IH in H. destruct H as (taken & -> & -> & -> & Hle & Hnext).
      exists (c :: taken). rewrite <- app_assoc. simpl. rewrite length_app.
      repeat split; try lia; [|exact Hnext].
      right. destruct Hle as [-> | Hle]; [|lia].
      simpl. apply Nat.leb_le in E. lia.
    + inversion H; subst. exists []. rewrite app_nil_r. simpl.
      apply Nat.leb_gt in E. intuition lia.
Qed.

Lemma concat_snoc (xs : list str) (x : str) : concat (xs ++ [x]) = concat xs ++ x.
Proof. rewrite concat_app. simpl. now rewrite app_nil_r. Qed.

(** One pass: the line is no longer than the width and the chunks left
    weigh less. *)
Lemma wrap_line_progress (width : nat) (first_line : bool) (c : str) (cs : list str)
    (cur_line chunks' : list str) :
  0 < width ->
  wrap_line width first_line (c :: cs) = (cur_line, chunks') ->
  length (concat cur_line) <= width /\ weight chunks' < weight (c :: cs).
Proof.
  intros Hw. unfold wrap_line.
  set (chunks1 := if blank c && negb first_line then cs else c :: cs).
  destruct (take_fitting width [] 0 chunks1) as [[cl len] chunks2] eqn:Et.
  pose proof (take_fitting_spec _ _ _ _ _ _ _ Et) as (taken & Hcl & Hch & Hlen & Hle & Hnext).
  simpl in Hcl, Hlen. subst cl len.
  assert (Hlen : length (concat taken) <= width)
    by (destruct Hle as [-> | Hle]; simpl; lia).
  assert (H1 : weight chunks1 <= weight (c :: cs)).
  { subst chunks1. destruct (blank c && negb first_line); rewrite ?weight_cons; lia. }
  assert (H1' : chunks1 = c :: cs \/ weight chunks1 < weight (c :: cs)).
  { subst chunks1. destruct (blank c && negb first_line); rewrite ?weight_cons;
      [right; lia | now left]. }
  rewrite Hch, weight_app in H1.
  set (res := match chunks2 with
              | c0 :: cs0 =>
                  if width <? length c0
                  then handle_long_word c0 cs0 taken (length (concat taken)) width
                  else (taken, chunks2)
              | [] => (taken, chunks2)
              end).
  assert (Hres : length (concat (fst res)) <= width
                 /\ weight (snd res) < weight (c :: cs)).
  { subst res. destruct chunks2 as [|c0 cs0].
    - simpl. split; [exact Hlen|].
      destruct H1' as [H1' | H1']; [|rewrite Hch, weight_app in H1'; simpl in *; lia].
      rewrite Hch, app_nil_r in H1'. subst taken.
      rewrite weight_cons. unfold weight at 1. simpl. lia.
    - destruct (width <? length c0) eqn:El.
      + unfold handle_long_word. apply Nat.ltb_lt in El.
        replace (width <? 1) with false by (symmetry; apply Nat.ltb_ge; lia).
        set (sl := width - length (concat taken)).
        pose proof (break_point_le c0 sl) as Hb.
        simpl. rewrite concat_snoc, length_app, length_firstn. split; [lia|].
        pose proof (weight_cons c cs) as Wc.
        pose proof (weight_cons c0 cs0) as Wc0.
        pose proof (weight_cons (skipn (break_point c0 sl) c0) cs0) as Wk.
        rewrite length_skipn in Wk.
        destruct taken as [|t ts].
        * simpl in *. destruct H1' as [H1' | H1']; [|rewrite Hch in H1'; lia].
          rewrite Hch in H1'. inversion H1'; subst c0 cs0.
          pose proof (break_point_pos c sl) as Hp. subst sl. lia.
        * pose proof (weight_cons t ts). lia.
      + simpl. split; [exact Hlen|].
        destruct taken as [|t ts].
        * simpl in Hnext. apply Nat.ltb_ge in El. lia.
        * rewrite weight_cons in H1. lia. }
  destruct res as [cur_line1 chunks3]. simpl in Hres. destruct Hres as [Hr1 Hr2].
  intros H. inversion H; subst. split; [|exact Hr2].
  destruct (rev cur_line1) as [|l before] eqn:Er; [exact Hr1|].
  destruct (blank l); [|exact Hr1].
  assert (cur_line1 = rev before ++ [l])
    by (rewrite <- (rev_involutive cur_line1), Er; reflexivity).
  subst cur_line1. rewrite concat_snoc, length_app in Hr1. lia.
Qed.

Lemma wrap_loop_total (width : nat) : forall fuel lines chunks,
  0 < width -> weight chunks < fuel ->
  exists lines', wrap_loop fuel width lines chunks = Some lines'.
Proof.
  induction fuel as [|fuel IH]; intros lines chunks Hw Hf; [lia|].
  destruct chunks as [|c cs]; [now exists lines|].
  cbn [wrap_loop].
  destruct (wrap_line width _ (c :: cs)) as [cur_line chunks'] eqn:E.
  apply wrap_line_progress in E; [|exact Hw].
  apply IH; [exact Hw | lia].
Qed.

Lemma wrap_loop_widths (width : nat) : forall fuel lines chunks lines',
  0 < width ->
  Forall (fun line => length line <= width) lines ->
  wrap_loop fuel width lines chunks = Some lines' ->
  Forall (fun line => length line <= width) lines'.
Proof.
  induction fuel as [|fuel IH]; intros lines chunks lines' Hw Hl H.
  - destruct chunks; simpl in H; [inversion H; now subst | discriminate].
  - destruct chunks as [|c cs]; [inversion H; now subst|].
    cbn [wrap_loop] in H.
    destruct (wrap_line width _ (c :: cs)) as [cur_line chunks'] eqn:E.
    apply wrap_line_progress in E; [|exact Hw].
    apply IH in H; [exact H | exact Hw |].
    destruct cur_line; [exact Hl|].
    apply Forall_app. split; [exact Hl|]. constructor; [tauto | constructor].
Qed.

(** [wrap] returns for every text, and no line is longer than the width. *)
Lemma wrap_total (width : nat) (text : str) :
  0 < width ->
  exists lines,
    wrap width text = Ok lines
    /\ Forall (fun line => length line <= width) lines.
Proof.
  intros Hw. unfold wrap, wrap_chunks.
  replace (width =? 0) with false by (symmetry; apply Nat.eqb_neq; lia).
  destruct (wrap_loop_total width (S (weight (split_chunks text))) []
              (split_chunks text) Hw) as [lines E]; [lia|].
  rewrite E. exists lines. split; [reflexivity|].
  apply (wrap_loop_widths width (S (weight (split_chunks text))) []
           (split_chunks text) lines Hw); [constructor | exact E].
Qed.

End WrapFacts.

(** ** The QR encoder adapter *)

Section Encoder.

Local Open Scope Z_scope.

Lemma native_width_pos (qr : QRCode) : 0 < native_width qr.
Proof. unfold native_width, symbol_size; cbn [fst]. lia. Qed.

Lemma qr_scale_eq (qr : QRCode) (qr_size : Z) :
  qr_scale qr qr_size = Z.max (qr_size / native_width qr) 1.
Proof. reflexivity. Qed.

Lemma qr_scale_mono (qr : QRCode) (n1 n2 : Z) :
  n1 <= n2 -> qr_scale qr n1 <= qr_scale qr n2.
Proof.
  intros H. rewrite !qr_scale_eq.
  pose proof (native_width_pos qr) as Hw.
  pose proof (Z.div_le_mono n1 n2 (native_width qr) Hw H). lia.
Qed.

Lemma create_qr_code_ok (w : World) (url : str) (qr : QRCode) (qr_size : Z) :
  segno_make w url = Some qr ->
  create_qr_code w url qr_size =
    Ok {| width := native_width qr * qr_scale qr qr_size;
          height := native_width qr * qr_scale qr qr_size |}.
Proof.
  intros H. unfold create_qr_code. rewrite H.
  unfold native_width, symbol_size; cbn [fst]. do 2 f_equal; lia.
Qed.



(** C6: for an encodable URL the image is the symbol scaled by an integer
    factor; the factor is the floor of the target size over the native
    width when that quotient is at least 1, and 1 otherwise, so it is
    always at least 1. *)
Theorem qr_scale_floor (w : World) (url : str) (qr : QRCode) (qr_size : Z) :
  segno_make w url = Some qr ->
  let scale := qr_scale qr qr_size in
  create_qr_code w url qr_size =
    Ok {| width := native_width qr * scale; height := native_width qr * scale |}
  /\ (1 <= qr_size / native_width qr -> scale = qr_size / native_width qr)
  /\ (qr_size / native_width qr < 1 -> scale = 1)
  /\ 1 <= scale
  /\ native_width qr * (qr_size / native_width qr) <= qr_size
       < native_width qr * (qr_size / native_width qr + 1).
Proof.
  intros H scale. subst scale. split; [now apply create_qr_code_ok|].
  rewrite qr_scale_eq. pose proof (native_width_pos qr) as Hw.
  repeat split; try lia.
  - apply Z.mul_div_le; lia.
  - rewrite Z.mul_add_distr_l, Z.mul_1_r.
    pose proof (Z.mod_pos_bound qr_size (native_width qr) Hw).
    pose proof (Z.div_mod qr_size (native_width qr)). lia.
Qed.

Lemma qr_scale_floor_witness :
  segno_make example_world (lit "https://example.com") = Some {| version := 3 |}
  /\ create_qr_code example_world (lit "https://example.com") 2000 =
       Ok {| width := 1998; height := 1998 |}.
Proof.
  split; [reflexivity|].
  exact (proj1 (qr_scale_floor example_world (lit "https://example.com")
                  {| version := 3 |} 2000 eq_refl)).
Defined.

(** C7: for a fixed encodable URL the encoder returns an image at every
    target size, and a larger target size never gives a smaller image. *)
Theorem create_qr_code_monotone (w : World) (url : str) (qr : QRCode) (n1 n2 : Z) :
  segno_make w url = Some qr ->
  n1 <= n2 ->
  exists img1 img2,
    create_qr_code w url n1 = Ok img1
    /\ create_qr_code w url n2 = Ok img2
    /\ width img1 <= width img2
    /\ height img1 <= height img2.
Proof.
  intros H Hn. do 2 eexists.
  rewrite (create_qr_code_ok w url qr n1 H), (create_qr_code_ok w url qr n2 H).
  do 2 (split; [reflexivity|]). cbn [width height].
  pose proof (native_width_pos qr). pose proof (qr_scale_mono qr n1 n2 Hn).
  split; apply Z.mul_le_mono_nonneg_l; lia.
Qed.

Lemma create_qr_code_monotone_witness :
  exists img1 img2,
    create_qr_code example_world (lit "https://example.com") 500 = Ok img1
    /\ create_qr_code example_world (lit "https://example.com") 2000 = Ok img2
    /\ width img1 <= width img2
    /\ height img1 <= height img2.
Proof.
  apply (create_qr_code_monotone example_world (lit "https://example.com")
           {| version := 3 |} 500 2000); [reflexivity | lia].
Defined.

End Encoder.

(** ** The shrink-to-fit loop *)

Section ShrinkToFit.

Local Open Scope Z_scope.

Variable w : World.
Variable font_path : option str.
Variable url : str.
Variable max_text_width : Z.

Lemma lines_fit_floor (font : Font) (font_size : Z) (lines : list str) :
  font_size <= 40 -> lines_fit font max_text_width font_size lines = true.
Proof.
  intros H. induction lines as [|line rest IH]; simpl; [reflexivity|].
  replace (40 <? font_size) with false by (symmetry; apply Z.ltb_ge; lia).
  now rewrite andb_false_r.
Qed.

Lemma lines_fit_true (font : Font) (font_size : Z) (lines : list str) :
  lines_fit font max_text_width font_size lines = true ->
  Forall (fun line => line_width font line <= max_text_width) lines
  \/ font_size <= 40.
Proof.
  destruct (Z.leb_spec font_size 40) as [Hf|Hf]; [now right|]. intros H. left.
  induction lines as [|line rest IH]; [constructor|]. simpl in H.
  replace (40 <? font_size) with true in H by (symmetry; apply Z.ltb_lt; lia).
  rewrite andb_true_r in H.
  destruct (Z.ltb_spec max_text_width (line_width font line)) as [Hl|Hl];
    [discriminate|].
  constructor; [exact Hl | now apply IH].
Qed.

Lemma lines_fit_false (font : Font) (font_size : Z) (lines : list str) :
  lines_fit font max_text_width font_size lines = false ->
  Exists (fun line => max_text_width < line_width font line) lines
  /\ 40 < font_size.
Proof.
  induction lines as [|line rest IH]; simpl; [discriminate|].
  destruct (Z.ltb_spec max_text_width (line_width font line)) as [Hl|Hl];
    destruct (Z.ltb_spec 40 font_size) as [Hf|Hf]; simpl; intros H.
  - split; [now constructor | exact Hf].
  - apply IH in H. lia.
  - apply IH in H. split; [now apply Exists_cons_tl | tauto].
  - apply IH in H. lia.
Qed.

(** A pass at [font_size] goes on to [font_size - 2] when a line is too
    wide and the size is above the floor, and ends the loop otherwise. *)
Definition shrinks (lines : list str) (font_size : Z) : Prop :=
  lines_fit (get_font w font_path font_size) max_text_width font_size lines = false.

Definition stops (lines : list str) (font_size : Z) : Prop :=
  lines_fit (get_font w font_path font_size) max_text_width font_size lines = true.

Lemma fit_loop_cases (lines : list str) :
  TextWrap.wrap 60 url = Ok lines ->
  forall fuel font_size,
    (exists k : nat,
        (k < fuel)%nat
        /\ fit_loop w font_path fuel url max_text_width font_size lines
           = Ok (font_size - 2 * Z.of_nat k, lines)
        /\ (forall j : nat, (j < k)%nat -> shrinks lines (font_size - 2 * Z.of_nat j))
        /\ stops lines (font_size - 2 * Z.of_nat k))
    \/ (fit_loop w font_path fuel url max_text_width font_size lines = Raise OutOfFuel
        /\ forall j : nat, (j < fuel)%nat -> shrinks lines (font_size - 2 * Z.of_nat j)).
Proof.
  intros Hwrap. induction fuel as [|fuel IH]; intros font_size.
  - right. split; [reflexivity | intros j Hj; lia].
  - cbn [fit_loop].
    destruct (lines_fit (get_font w font_path font_size) max_text_width font_size lines)
      eqn:Efit.
    + left. exists 0%nat. unfold stops. change (2 * Z.of_nat 0) with 0.
      rewrite Z.sub_0_r. cbn [orb].
      repeat split; [lia | intros j Hj; lia | exact Efit].
    + pose proof (lines_fit_false _ _ _ Efit) as [_ Hf].
      replace (font_size <=? 40) with false by (symmetry; apply Z.leb_gt; lia).
      cbn [orb]. rewrite Hwrap. cbn [bind].
      assert (Hshift : forall j : nat,
                 font_size - 2 - 2 * Z.of_nat j = font_size - 2 * Z.of_nat (S j))
        by (intros j; lia).
      destruct (IH (font_size - 2)) as [(k & Hk & Hrun & Hbefore & Hstop) | (Hrun & Hbefore)].
      * left. exists (S k). rewrite <- Hshift.
        split; [lia|]. split; [exact Hrun|]. split; [|exact Hstop].
        intros [|j] Hj;
          [unfold shrinks; change (2 * Z.of_nat 0) with 0; now rewrite Z.sub_0_r|].
        rewrite <- Hshift. apply Hbefore. lia.
      * right. split; [exact Hrun|].
        intros [|j] Hj;
          [unfold shrinks; change (2 * Z.of_nat 0) with 0; now rewrite Z.sub_0_r|].
        rewrite <- Hshift. apply Hbefore. lia.
Qed.

(** From the size 80 the loop ends within 21 passes; [k] counts the
    decrements. *)
Lemma fit_loop_from_80 (lines : list str) :
  TextWrap.wrap 60 url = Ok lines ->
  exists k : nat,
    (k <= 20)%nat
    /\ (forall j : nat, (j < k)%nat -> shrinks lines (80 - 2 * Z.of_nat j))
    /\ stops lines (80 - 2 * Z.of_nat k)
    /\ forall fuel,
         (k < fuel)%nat <->
         fit_loop w font_path fuel url max_text_width 80 lines
         = Ok (80 - 2 * Z.of_nat k, lines).
Proof.
  intros Hwrap.
  destruct (fit_loop_cases lines Hwrap 21 80)
    as [(k & Hk & Hrun & Hbefore & Hstop) | (_ & Hbefore)].
  - exists k. repeat split; [lia | exact Hbefore | exact Hstop | |].
    + intros Hf.
      destruct (fit_loop_cases lines Hwrap fuel 80)
        as [(k' & Hk' & Hrun' & Hbefore' & Hstop') | (_ & Hbefore')].
      * destruct (Nat.lt_trichotomy k k') as [Hlt | [<- | Hgt]]; [| exact Hrun' |].
        -- specialize (Hbefore' k Hlt). unfold shrinks, stops in *. congruence.
        -- specialize (Hbefore k' Hgt). unfold shrinks, stops in *. congruence.
      * specialize (Hbefore' k Hf). unfold shrinks, stops in *. congruence.
    + intros Hf.
      destruct (fit_loop_cases lines Hwrap fuel 80)
        as [(k' & Hk' & Hrun' & Hbefore' & Hstop') | (Hrun' & _)];
        [|rewrite Hrun' in Hf; discriminate].
      rewrite Hrun' in Hf.
      assert (80 - 2 * Z.of_nat k' = 80 - 2 * Z.of_nat k) by congruence. lia.
  - specialize (Hbefore 20%nat ltac:(lia)). unfold shrinks in Hbefore.
    rewrite lines_fit_floor in Hbefore; [discriminate | lia].
Qed.

End ShrinkToFit.

(** C1: the URL block that the composer fits is returned for every URL and
    font, and either every wrapped line is at most the content width (the
    page width minus the two side margins of 300) in the final font, or the
    final font size is the floor of 40.  The block of a composed page is
    that result. *)
Theorem fit_url_fit_or_floor (w : World) (font_path : option str) (url : str)
    (page_size : Z * Z) :
  let max_text_width := (fst page_size - 2 * 300)%Z in
  (exists font_size lines,
      fit_url w font_path url max_text_width 80 = Ok (font_size, lines)
      /\ (Forall (fun line =>
                    (line_width (get_font w font_path font_size) line
                     <= max_text_width)%Z) lines
          \/ font_size = 40%Z))
  /\ forall title page,
       create_full_page_image w font_path title url page_size = Ok page ->
       fit_url w font_path url max_text_width 80
       = Ok (url_font_size page, map text (url_lines page)).
Proof.
  intros max_text_width. split.
  - destruct (WrapFacts.wrap_total 60 url) as (lines & Hwrap & _); [lia|].
    destruct (fit_loop_from_80 w font_path url max_text_width lines Hwrap)
      as (k & Hk & _ & Hstop & Hrun).
    exists (80 - 2 * Z.of_nat k)%Z, lines. split.
    + unfold fit_url. rewrite Hwrap. cbn [bind]. apply Hrun.
      change (passes_from 80) with 21%nat. lia.
    + apply lines_fit_true in Hstop. destruct Hstop as [Hfit | Hfloor];
        [now left | right; lia].
  - intros title page. unfold create_full_page_image.
    destruct ((fst page_size <? 0) || (snd page_size <? 0))%Z; [discriminate|].
    destruct (TextWrap.wrap 30 title) as [wrapped_title|e]; cbn [bind]; [|discriminate].
    destruct (draw_lines _ _ _ _ wrapped_title) as [title_drawn y1].
    destruct (create_qr_code w url 2000) as [img_qr|e]; cbn [bind]; [|discriminate].
    fold max_text_width.
    destruct (fit_url w font_path url max_text_width 80) as [[font_size lines]|e];
      cbn [bind]; [|discriminate].
    destruct (draw_lines _ _ _ _ lines) as [url_drawn y2] eqn:Ed.
    intros H. inversion H; subst; cbn [url_font_size url_lines].
    do 2 f_equal. clear H. revert url_drawn y2 Ed.
    generalize (y1 + 100 + snd (width img_qr + 2 * 20, height img_qr + 2 * 20) + 100)%Z.
    induction lines as [|line rest IH]; intros y0 url_drawn y2 Ed; simpl in Ed.
    + inversion Ed. reflexivity.
    + destruct (draw_lines _ _ _ _ rest) as [ds y'] eqn:Er.
      inversion Ed; subst. simpl. f_equal. eapply IH. exact Er.
Qed.

Lemma fit_url_fit_or_floor_witness :
  exists page,
    create_full_page_image example_world None (lit "Team Meeting")
      (lit "https://example.com/meet") letter_page = Ok page
    /\ fit_url example_world None (lit "https://example.com/meet") 1950 80
       = Ok (url_font_size page, map text (url_lines page)).
Proof.
  eexists. split.
  - vm_compute. reflexivity.
  - apply (proj2 (fit_url_fit_or_floor example_world None
                    (lit "https://example.com/meet") letter_page)
             (lit "Team Meeting")).
    vm_compute. reflexivity.
Defined.

(** C8: the loop ends.  It starts at 80 and makes [k + 1] passes, with
    [k <= 20]: at each of the sizes 80, 78, ..., [80 - 2 * (k - 1)] some line
    is wider than the content width and the size goes down by 2; the pass at
    [80 - 2 * k] is the first at which every line fits or the size is the
    floor of 40, and it is the last.  One unit of fuel is one pass, so
    exactly the fuels above [k] let the loop return. *)
Theorem fit_url_terminates (w : World) (font_path : option str) (url : str)
    (max_text_width : Z) :
  exists (k : nat) (lines : list str),
    (k <= 20)%nat
    /\ TextWrap.wrap 60 url = Ok lines
    /\ fit_url w font_path url max_text_width 80
       = Ok ((80 - 2 * Z.of_nat k)%Z, lines)
    /\ (forall j : nat, (j < k)%nat ->
          Exists (fun line =>
                    (max_text_width
                     < line_width (get_font w font_path (80 - 2 * Z.of_nat j)) line)%Z)
                 lines)
    /\ (Forall (fun line =>
                  (line_width (get_font w font_path (80 - 2 * Z.of_nat k)) line
                   <= max_text_width)%Z) lines
        \/ (80 - 2 * Z.of_nat k = 40)%Z)
    /\ forall fuel : nat,
         (k < fuel)%nat <->
         fit_loop w font_path fuel url max_text_width 80 lines
         = Ok ((80 - 2 * Z.of_nat k)%Z, lines).
Proof.
  destruct (WrapFacts.wrap_total 60 url) as (lines & Hwrap & _); [lia|].
  destruct (fit_loop_from_80 w font_path url max_text_width lines Hwrap)
    as (k & Hk & Hbefore & Hstop & Hrun).
  exists k, lines. split; [exact Hk|]. split; [exact Hwrap|]. split.
  { unfold fit_url. rewrite Hwrap. cbn [bind]. apply Hrun.
    change (passes_from 80) with 21%nat. lia. }
  split.
  { intros j Hj. apply Hbefore in Hj. now apply lines_fit_false in Hj. }
  split; [|exact Hrun].
  apply lines_fit_true in Hstop. destruct Hstop as [Hfit | Hfloor];
    [now left | right; lia].
Qed.

(** With the font file of the examples a line of 60 characters is 2400
    pixels wide at the size 80 and fits the 1950 pixels at the size 64,
    after 8 decrements. *)
Example fit_url_shrinks :
  fit_url example_world (Some (lit "font.ttf"))
    (lit "https://example.com/a/long/path/that/fills/sixty/characters/") 1950 80
  = Ok (64%Z, [lit "https://example.com/a/long/path/that/fills/sixty/characters/"]).
Proof. vm_compute. reflexivity. Qed.

Lemma fit_url_terminates_witness :
  exists (k : nat) (lines : list str),
    (k <= 20)%nat
    /\ TextWrap.wrap 60 (lit "https://example.com/meet") = Ok lines
    /\ fit_url example_world None (lit "https://example.com/meet") 1950 80
       = Ok ((80 - 2 * Z.of_nat k)%Z, lines).
Proof.
  destruct (fit_url_terminates example_world None (lit "https://example.com/meet") 1950)
    as (k & lines & H1 & H2 & H3 & _).
  exists k, lines. auto.
Defined.

(** ** [get_font] *)

Lemma get_font_fallback_default (w : World) (font_path : option str) (font_size : Z) :
  fallback w font_path -> get_font w font_path font_size = load_default w.
Proof.
  intros [-> | (path & -> & [H | H])]; simpl; [reflexivity | now rewrite H |].
  rewrite H. now destruct (path_exists w path).
Qed.



(** X18: on a fallback path the loop keeps the size 80 or ends at the
    floor of 40: the default font does not change with the size, so
    shrinking does not make a line narrower. *)
Theorem fit_url_fallback (w : World) (font_path : option str) (url : str)
    (max_text_width font_size : Z) (lines : list str) :
  fallback w font_path ->
  fit_url w font_path url max_text_width 80 = Ok (font_size, lines) ->
  font_size = 80%Z \/ font_size = 40%Z.
Proof.
  intros Hfb Hfit.
  destruct (WrapFacts.wrap_total 60 url) as (lines0 & Hwrap & _); [lia|].
  destruct (fit_loop_from_80 w font_path url max_text_width lines0 Hwrap)
    as (k & Hk & Hbefore & Hstop & Hrun).
  unfold fit_url in Hfit. rewrite Hwrap in Hfit. cbn [bind] in Hfit.
  change (passes_from 80) with 21%nat in Hfit.
  rewrite (proj1 (Hrun 21%nat)) in Hfit by lia.
  assert (Hsize : font_size = (80 - 2 * Z.of_nat k)%Z) by congruence.
  subst font_size. clear Hfit.
  destruct k as [|k]; [left; reflexivity | right].
  specialize (Hbefore 0%nat ltac:(lia)). unfold shrinks, stops in *.
  rewrite (get_font_fallback_default w font_path _ Hfb) in Hbefore.
  rewrite (get_font_fallback_default w font_path _ Hfb) in Hstop.
  apply lines_fit_false in Hbefore. destruct Hbefore as [Hwide _].
  apply lines_fit_true in Hstop. destruct Hstop as [Hfit | Hfloor]; [|lia].
  apply Exists_exists in Hwide. destruct Hwide as (line & Hin & Hwide).
  rewrite Forall_forall in Hfit. specialize (Hfit line Hin). lia.
Qed.

Lemma fit_url_fallback_witness :
  fallback example_world None
  /\ fit_url example_world None (lit "https://example.com/meet") 100 80
     = Ok (40%Z, [lit "https://example.com/meet"])
  /\ (40 = 80 \/ 40 = 40)%Z.
Proof.
  assert (H : fallback example_world None) by now left.
  assert (E : fit_url example_world None (lit "https://example.com/meet") 100 80
              = Ok (40%Z, [lit "https://example.com/meet"]))
    by (vm_compute; reflexivity).
  split; [exact H|]. split; [exact E|].
  exact (fit_url_fallback example_world None _ 100 40%Z _ H E).
Defined.

(** ** [process_csv] *)

Section Batch.

Variable w : World.
Variable save_to_dir : str.
Variable font_path : option str.

Lemma calls_app (l1 l2 : list Event) : calls (l1 ++ l2) = calls l1 ++ calls l2.
Proof. apply flat_map_app. Qed.

Lemma skipped_app (l1 l2 : list Event) : skipped (l1 ++ l2) = skipped l1 ++ skipped l2.
Proof. apply flat_map_app. Qed.

Lemma saved_app (l1 l2 : list Event) : saved (l1 ++ l2) = saved l1 ++ saved l2.
Proof. apply flat_map_app. Qed.

(** The events of the rows already read stay in front. *)
Lemma process_entries_log : forall entries index log,
  process_entries w save_to_dir font_path index entries log
  = (log ++ fst (process_entries w save_to_dir font_path index entries []),
     snd (process_entries w save_to_dir font_path index entries [])).
Proof.
  induction entries as [|entry rest IH]; intros index log.
  - simpl. now rewrite app_nil_r.
  - cbn [process_entries]. destruct entry as [|title0 [|url0 more]].
    + rewrite IH, (IH _ ([] ++ _)). cbn [fst snd]. now rewrite <- app_assoc.
    + rewrite IH, (IH _ ([] ++ _)). cbn [fst snd]. now rewrite <- app_assoc.
    + destruct (strip url0) as [|u us].
      * rewrite IH, (IH _ ([] ++ _)). cbn [fst snd]. now rewrite <- app_assoc.
      * destruct (create_full_page_image _ _ _ _ _) as [img|e]; [|reflexivity].
        destruct (save_png _ _ _); [|reflexivity].
        rewrite IH, (IH _ ([] ++ _)). cbn [fst snd]. now rewrite <- app_assoc.
Qed.

(** In every run the composition calls are the first valid rows, in file
    order. *)
Lemma process_entries_calls_prefix : forall entries index,
  exists later,
    map row_call (filter valid_row entries)
    = calls (fst (process_entries w save_to_dir font_path index entries [])) ++ later.
Proof.
  induction entries as [|entry rest IH]; intros index; [now exists []|].
  destruct (IH (S index)) as [later Hlater].
  cbn [process_entries filter].
  destruct entry as [|title0 [|url0 more]]; cbn [valid_row].
  - rewrite process_entries_log; cbn [fst]. rewrite calls_app.
    exists later. exact Hlater.
  - rewrite process_entries_log; cbn [fst]. rewrite calls_app.
    exists later. exact Hlater.
  - destruct (strip url0) as [|u us] eqn:Eu.
    + rewrite process_entries_log; cbn [fst]. rewrite calls_app.
      exists later. exact Hlater.
    + cbn [map row_call]. rewrite Eu.
      destruct (create_full_page_image _ _ _ _ _) as [img|e].
      * destruct (save_png _ _ _).
        -- rewrite process_entries_log; cbn [fst]. rewrite calls_app.
           exists later. cbn [app calls flat_map]. now rewrite Hlater.
        -- cbn [fst]. exists (map row_call (filter valid_row rest)). reflexivity.
      * cbn [fst]. exists (map row_call (filter valid_row rest)). reflexivity.
Qed.

(** One row that is skipped or completed, then the rest of the run. *)
Lemma process_entries_step (entry : list str) (rest : list (list str)) (index : nat) :
  (valid_row entry = true -> completes w save_to_dir font_path entry) ->
  exists events,
    process_entries w save_to_dir font_path index (entry :: rest) []
    = (events ++ fst (process_entries w save_to_dir font_path (S index) rest []),
       snd (process_entries w save_to_dir font_path (S index) rest []))
    /\ calls events = map row_call (filter valid_row [entry])
    /\ skipped events = invalid_rows index [entry]
    /\ saved events = map png_name (calls events).
Proof.
  intros Hentry. cbn [process_entries filter invalid_rows].
  destruct entry as [|title0 [|url0 more]]; cbn [valid_row] in *.
  - eexists. rewrite process_entries_log. split; [reflexivity|]. now repeat split.
  - eexists. rewrite process_entries_log. split; [reflexivity|]. now repeat split.
  - destruct (strip url0) as [|u us] eqn:Eu.
    + eexists. rewrite process_entries_log. split; [reflexivity|]. now repeat split.
    + destruct (Hentry eq_refl) as [[page Hpage] Hsave].
      unfold saves, png_name in Hsave. cbn [row_call fst snd] in Hpage, Hsave.
      rewrite Eu in Hpage. rewrite Hpage, Hsave.
      eexists. rewrite process_entries_log. split; [reflexivity|].
      cbn [map row_call]. rewrite Eu. now repeat split.
Qed.

(** When the page of every valid row is composed and saved, the run ends
    normally, composes the valid rows and skips the others. *)
Lemma process_entries_complete : forall entries index,
  (forall entry, In entry entries -> valid_row entry = true ->
                 completes w save_to_dir font_path entry) ->
  let run := process_entries w save_to_dir font_path index entries [] in
  snd run = Ok tt
  /\ calls (fst run) = map row_call (filter valid_row entries)
  /\ skipped (fst run) = invalid_rows index entries
  /\ saved (fst run) = map png_name (calls (fst run)).
Proof.
  induction entries as [|entry rest IH]; intros index Hall; [now repeat split|].
  assert (Hrest : forall entry', In entry' rest -> valid_row entry' = true ->
                                 completes w save_to_dir font_path entry')
    by (intros e He; apply Hall; now right).
  specialize (IH (S index) Hrest). cbn zeta in IH.
  destruct IH as (IH1 & IH2 & IH3 & IH4).
  destruct (process_entries_step entry rest index (Hall entry (or_introl eq_refl)))
    as (events & -> & Hc & Hs & Hf).
  cbn zeta. cbn [fst snd].
  rewrite calls_app, skipped_app, saved_app, map_app, Hf, IH4, Hc, Hs, IH2, IH3.
  split; [exact IH1|].
  cbn [filter invalid_rows]. destruct (valid_row entry); now repeat split.
Qed.

(** The first valid row of which the page is not composed and saved ends
    the run with an exception: of the rows after it none is skipped or
    composed. *)
Lemma process_entries_abort : forall before index entry after,
  (forall entry', In entry' before -> valid_row entry' = true ->
                  completes w save_to_dir font_path entry') ->
  valid_row entry = true ->
  ~ completes w save_to_dir font_path entry ->
  let run :=
    process_entries w save_to_dir font_path index (before ++ entry :: after) [] in
  (exists e, snd run = Raise e)
  /\ calls (fst run) = map row_call (filter valid_row before) ++ [row_call entry]
  /\ skipped (fst run) = invalid_rows index before
  /\ saved (fst run) = map png_name (map row_call (filter valid_row before)).
Proof.
  induction before as [|row before' IH]; intros index entry after Hall Hvalid Hnot.
  - cbn zeta. cbn [app process_entries filter invalid_rows map].
    destruct entry as [|title0 [|url0 more]]; cbn [valid_row] in Hvalid;
      try discriminate Hvalid.
    destruct (strip url0) as [|u us] eqn:Eu; [discriminate Hvalid|].
    destruct (create_full_page_image _ _ _ _ _) as [img|e] eqn:Ec.
    + destruct (save_png _ _ _) eqn:Es.
      * exfalso. apply Hnot. split.
        -- exists img. cbn [row_call fst snd]. now rewrite Eu.
        -- exact Es.
      * cbn [app fst snd row_call]. rewrite Eu.
        split; [now exists OSError|]. now repeat split.
    + cbn [app fst snd row_call]. rewrite Eu.
      split; [now exists e|]. now repeat split.
  - assert (Hrest : forall entry', In entry' before' -> valid_row entry' = true ->
                                   completes w save_to_dir font_path entry')
      by (intros e He; apply Hall; now right).
    specialize (IH (S index) entry after Hrest Hvalid Hnot). cbn zeta in IH.
    destruct IH as (IH1 & IH2 & IH3 & IH4).
    cbn zeta. rewrite <- app_comm_cons.
    destruct (process_entries_step row (before' ++ entry :: after) index
                (Hall row (or_introl eq_refl)))
      as (events & -> & Hc & Hs & Hf).
    cbn [fst snd].
    rewrite calls_app, skipped_app, saved_app, Hf, IH4, Hc, Hs, IH2, IH3.
    split; [exact IH1|].
    cbn [filter invalid_rows]. destruct (valid_row row); cbn [map app];
      now repeat split.
Qed.

End Batch.

(** C4, as the code has it.  When the page of every valid row is composed
    and saved without an exception, [process_csv] ends normally, skips
    exactly the rows with fewer than 2 columns and the rows whose second
    column is empty once stripped, and composes a page for each of the
    other rows, in file order; so 5 rows of which 3 are valid give exactly
    3 composition calls.  The first valid row of which the composition or
    the save raises ends the run with an exception: the rows before it
    are composed or skipped as above, and the rows after it are neither
    skipped nor composed. *)
Theorem process_csv_composes_valid_rows (w : World) (entries : list (list str))
    (save_to_dir font_path : str) :
  let run := process_csv w entries save_to_dir font_path in
  let completed := completes w save_to_dir (font_path_of font_path) in
  ((forall entry, In entry entries -> valid_row entry = true -> completed entry) ->
   snd run = Ok tt
   /\ calls (fst run) = map row_call (filter valid_row entries)
   /\ skipped (fst run) = invalid_rows 1 entries
   /\ length (calls (fst run)) = length (filter valid_row entries))
  /\ (forall before entry after,
        entries = before ++ entry :: after ->
        (forall entry', In entry' before -> valid_row entry' = true ->
                        completed entry') ->
        valid_row entry = true ->
        ~ completed entry ->
        (exists e, snd run = Raise e)
        /\ calls (fst run) = map row_call (filter valid_row before) ++ [row_call entry]
        /\ skipped (fst run) = invalid_rows 1 before
        /\ saved (fst run) = map png_name (map row_call (filter valid_row before))).
Proof.
  cbn zeta. unfold process_csv. split.
  - intros Hall.
    destruct (process_entries_complete w save_to_dir (font_path_of font_path)
                entries 1 Hall) as (H1 & H2 & H3 & _).
    repeat split; [exact H1 | exact H2 | exact H3 |].
    rewrite H2. apply length_map.
  - intros before entry after -> Hall Hvalid Hnot.
    exact (process_entries_abort w save_to_dir (font_path_of font_path)
             before 1 entry after Hall Hvalid Hnot).
Qed.

Lemma process_csv_composes_valid_rows_witness :
  (forall entry, In entry five_rows -> valid_row entry = true ->
                 completes example_world (lit "out") (font_path_of []) entry)
  /\ calls (fst (process_csv example_world five_rows (lit "out") []))
     = [ (lit "Event Registration", lit "https://example.com/register");
         (lit "Survey Link", lit "https://example.com/survey");
         (lit "Website", lit "https://example.com") ]
  /\ skipped (fst (process_csv example_world five_rows (lit "out") [])) = [2; 4]
  /\ length (calls (fst (process_csv example_world five_rows (lit "out") []))) = 3
  /\ ~ completes example_world (lit "out") (font_path_of [])
         [long_title; lit "https://example.com"]
  /\ calls (fst (process_csv example_world
                   [ [lit "Short"];
                     [long_title; lit "https://example.com"];
                     [lit "Website"; lit "https://example.com"] ] (lit "out") []))
     = [ (long_title, lit "https://example.com") ]
  /\ skipped (fst (process_csv example_world
                     [ [lit "Short"];
                       [long_title; lit "https://example.com"];
                       [lit "Website"; lit "https://example.com"] ] (lit "out") []))
     = [1].
Proof.
  assert (H : forall entry, In entry five_rows -> valid_row entry = true ->
                            completes example_world (lit "out") (font_path_of []) entry).
  { intros entry Hin Hv. simpl in Hin.
    destruct Hin as [<- | [<- | [<- | [<- | [<- | []]]]]];
      try (vm_compute in Hv; discriminate Hv);
      (split; [eexists; vm_compute; reflexivity | vm_compute; reflexivity]). }
  assert (Hnot : ~ completes example_world (lit "out") (font_path_of [])
                     [long_title; lit "https://example.com"]).
  { intros [_ Hsave]. vm_compute in Hsave. discriminate Hsave. }
  split; [exact H|].
  destruct (proj1 (process_csv_composes_valid_rows example_world five_rows
                     (lit "out") []) H) as (_ & H2 & H3 & H4).
  split; [rewrite H2; reflexivity|].
  split; [rewrite H3; reflexivity|].
  split; [rewrite H4; reflexivity|].
  split; [exact Hnot|].
  destruct (proj2 (process_csv_composes_valid_rows example_world
                     [ [lit "Short"];
                       [long_title; lit "https://example.com"];
                       [lit "Website"; lit "https://example.com"] ] (lit "out") [])
              [ [lit "Short"] ] [long_title; lit "https://example.com"]
              [ [lit "Website"; lit "https://example.com"] ] eq_refl)
    as (_ & H5 & H6 & _).
  - intros entry' [<- | []] Hv. vm_compute in Hv. discriminate Hv.
  - vm_compute. reflexivity.
  - exact Hnot.
  - split; [rewrite H5; vm_compute; reflexivity | rewrite H6; reflexivity].
Defined.

(** C4 as stated fails: a valid row whose URL the QR library cannot
    encode ends the run, and the valid row after it is never composed. *)
Lemma process_csv_stops_at_unencodable_row :
  ~ (forall (w : World) (entries : list (list str)) (save_to_dir font_path : str),
       calls (fst (process_csv w entries save_to_dir font_path))
       = map row_call (filter valid_row entries)).
Proof.
  intros H.
  specialize (H example_world
                [ [lit "Archive"; oversized_url];
                  [lit "Website"; lit "https://example.com"] ] (lit "out") []).
  vm_compute in H. discriminate H.
Qed.




(** ** The chunk splitter *)

Module SplitFacts.
Import TextWrap.

Lemma span_len_le (p : ascii -> bool) (s : str) : span_len p s <= length s.
Proof. induction s as [|c s IH]; simpl; [lia|]. destruct (p c); simpl; lia. Qed.

Lemma span_len_firstn (p : ascii -> bool) (s : str) :
  Forall (fun c => p c = true) (firstn (span_len p s) s).
Proof.
  induction s as [|c s IH]; simpl; [constructor|].
  destruct (p c) eqn:E; simpl; [now constructor | constructor].
Qed.

Lemma span_len_skipn (p : ascii -> bool) (s : str) :
  match skipn (span_len p s) s with
  | c :: _ => p c = false
  | [] => True
  end.
Proof.
  induction s as [|c s IH]; simpl; [exact I|].
  destruct (p c) eqn:E; simpl; [exact IH | exact E].
Qed.

Lemma word_more_le : forall rest before, word_more before rest <= length rest.
Proof.
  induction rest as [|c r IH]; intros before; simpl; [lia|].
  destruct (is_hyphen c && behind_hyphen before && ahead_letters r); [lia|].
  destruct (is_ws c); [lia|].
  destruct (_ && emdash_ahead (c :: r)); [lia|].
  specialize (IH (c :: before)). lia.
Qed.

Lemma match_len_bounds (before : str) (c : ascii) (r : str) :
  1 <= match_len before (c :: r) <= length (c :: r).
Proof.
  unfold match_len. destruct (is_ws c) eqn:Ews.
  - pose proof (span_len_le is_ws (c :: r)). simpl in *. rewrite Ews in *. lia.
  - destruct (match before with p :: _ => is_word_punct p | [] => false end
              && emdash_ahead (c :: r)) eqn:Ed.
    + apply andb_true_iff in Ed. destruct Ed as [_ Ed].
      unfold emdash_ahead in Ed. apply andb_true_iff in Ed. destruct Ed as [Ed _].
      apply Nat.leb_le in Ed. pose proof (span_len_le is_hyphen (c :: r)). lia.
    + pose proof (word_more_le r (c :: before)). simpl. lia.
Qed.

(** The chunks are not empty and make up the text. *)
Lemma split_from_concat : forall fuel before rest,
  length rest <= fuel ->
  concat (split_from fuel before rest) = rest
  /\ Forall (fun c => c <> []) (split_from fuel before rest).
Proof.
  induction fuel as [|fuel IH]; intros before rest Hf.
  - destruct rest; [now split | simpl in Hf; lia].
  - destruct rest as [|c r]; [now split|].
    cbn [split_from].
    pose proof (match_len_bounds before c r) as Hn.
    set (n := match_len before (c :: r)) in *.
    destruct (IH (rev (firstn n (c :: r)) ++ before) (skipn n (c :: r))) as [IH1 IH2].
    { rewrite length_skipn. lia. }
    split.
    + cbn [concat]. rewrite IH1. apply firstn_skipn.
    + constructor; [|exact IH2].
      destruct n; [lia | discriminate].
Qed.

Lemma split_concat (text : str) :
  concat (split text) = text /\ Forall (fun c => c <> []) (split text).
Proof. apply split_from_concat. lia. Qed.

(** *** Whitespace munging *)

Lemma is_ws_tab (c : ascii) : is_char 9 c = true -> is_ws c = true.
Proof.
  destruct c as [[] [] [] [] [] [] [] []]; vm_compute; intros H;
    first [ reflexivity | discriminate ].
Qed.

Lemma is_ws_space : is_ws SPACE = true.
Proof. reflexivity. Qed.

Lemma expandtabs_from_length : forall (s : str) line_pos,
  length s <= length (expandtabs_from 8 line_pos s).
Proof.
  induction s as [|c rest IH]; intros line_pos; cbn [expandtabs_from length]; [lia|].
  destruct (is_char 9 c).
  - change (0 <? 8) with true. cbn iota.
    rewrite length_app, repeat_length.
    assert (line_pos mod 8 < 8) by (apply Nat.mod_upper_bound; lia).
    specialize (IH (line_pos + (8 - line_pos mod 8))). lia.
  - cbn [length].
    specialize (IH (if is_char 10 c || is_char 13 c then 0 else S line_pos)).
    lia.
Qed.

Lemma munge_whitespace_length (text : str) :
  length text <= length (munge_whitespace text).
Proof.
  unfold munge_whitespace, translate_ws, expandtabs. rewrite length_map.
  apply expandtabs_from_length.
Qed.

End SplitFacts.

(** ** Wrapping: the shape of a pass *)

Module WrapShape.
Import TextWrap WrapFacts.

(** A pass takes the chunks [taken] that fit; then either the next chunk
    is not longer than the width and the pass leaves it for the next line,
    or it is longer and the pass cuts it at [e]. *)
Lemma wrap_line_anatomy (width : nat) (first_line : bool) (c : str) (cs : list str)
    (cur_line chunks' : list str) :
  0 < width ->
  wrap_line width first_line (c :: cs) = (cur_line, chunks') ->
  exists taken chunks2 cur_line1,
    (if blank c && negb first_line then cs else c :: cs) = taken ++ chunks2
    /\ length (concat taken) <= width
    /\ ((cur_line1 = taken /\ chunks' = chunks2
         /\ match chunks2 with
            | c0 :: _ => length c0 <= width /\ width < length (concat taken) + length c0
            | [] => True
            end)
        \/ exists c0 cs0 e,
             chunks2 = c0 :: cs0 /\ width < length c0 /\ e < length c0
             /\ e <= width - length (concat taken)
             /\ (taken = [] -> 1 <= e)
             /\ cur_line1 = taken ++ [firstn e c0]
             /\ chunks' = skipn e c0 :: cs0)
    /\ cur_line = drop_trailing_blank cur_line1.
Proof.
  intros Hw. unfold wrap_line.
  set (chunks1 := if blank c && negb first_line then cs else c :: cs).
  destruct (take_fitting width [] 0 chunks1) as [[cl len] chunks2] eqn:Et.
  pose proof (take_fitting_spec _ _ _ _ _ _ _ Et) as (taken & Hcl & Hch & Hlen & Hle & Hnext).
  simpl in Hcl, Hlen. subst cl len.
  assert (Hlen : length (concat taken) <= width)
    by (destruct Hle as [-> | Hle]; simpl; lia).
  destruct chunks2 as [|c0 cs0].
  - intros H. inversion H; subst. exists taken, [], taken.
    repeat split; [exact Hch | exact Hlen | now left].
  - destruct (width <? length c0) eqn:El.
    + apply Nat.ltb_lt in El. unfold handle_long_word.
      replace (width <? 1) with false by (symmetry; apply Nat.ltb_ge; lia).
      set (sl := width - length (concat taken)).
      set (e := break_point c0 sl).
      intros H. inversion H; subst cur_line chunks'.
      exists taken, (c0 :: cs0), (taken ++ [firstn e c0]).
      pose proof (break_point_le c0 sl) as Hb. fold e in Hb.
      repeat split; [exact Hch | exact Hlen |].
      right. exists c0, cs0, e.
      repeat split; [exact El | subst sl; lia | exact Hb |].
      intros ->. subst e sl. simpl. rewrite Nat.sub_0_r.
      now apply break_point_pos.
    + apply Nat.ltb_ge in El. intros H. inversion H; subst.
      exists taken, (c0 :: cs0), taken.
      repeat split; [exact Hch | exact Hlen |]. left. now repeat split.
Qed.

Lemma drop_trailing_blank_snoc (xs : list str) (x : str) :
  drop_trailing_blank (xs ++ [x]) = if blank x then xs else xs ++ [x].
Proof.
  unfold drop_trailing_blank. rewrite rev_app_distr. simpl.
  now rewrite rev_involutive.
Qed.

Lemma list_snoc_cases {A : Type} (l : list A) :
  l = [] \/ exists xs x, l = xs ++ [x].
Proof.
  destruct (rev l) as [|x rxs] eqn:E.
  - left. now rewrite <- (rev_involutive l), E.
  - right. exists (rev rxs), x. now rewrite <- (rev_involutive l), E.
Qed.

(** *** Solid ends *)

Lemma tail_solid_snoc (xs : list str) (x : str) :
  tail_solid (xs ++ [x]) <-> x <> [] /\ ends_with_space x = false.
Proof. unfold tail_solid. rewrite rev_app_distr. reflexivity. Qed.

Lemma tail_solid_app (xs ys : list str) :
  ys <> [] -> (tail_solid (xs ++ ys) <-> tail_solid ys).
Proof.
  intros Hy. destruct (list_snoc_cases ys) as [-> | (zs & z & ->)]; [contradiction|].
  rewrite app_assoc, !tail_solid_snoc. reflexivity.
Qed.

Lemma tail_solid_cons (x : str) (ys : list str) :
  ys <> [] -> (tail_solid (x :: ys) <-> tail_solid ys).
Proof. apply (tail_solid_app [x]). Qed.

Lemma solid_not_blank (x : str) :
  x <> [] -> ends_with_space x = false -> blank x = false.
Proof.
  intros Hx He. destruct (list_snoc_cases x) as [-> | (s & c & ->)]; [contradiction|].
  unfold ends_with_space in He. rewrite rev_app_distr in He. simpl in He.
  unfold blank. rewrite forallb_app. simpl. rewrite He.
  now rewrite andb_false_r.
Qed.

Lemma head_solid_not_blank (x : str) :
  x <> [] -> starts_with_space x = false -> blank x = false.
Proof.
  destruct x as [|c s]; [contradiction|]. simpl. now intros _ ->.
Qed.

Lemma ends_with_space_skipn (e : nat) (x : str) :
  e < length x -> ends_with_space (skipn e x) = ends_with_space x.
Proof.
  intros He. destruct (list_snoc_cases x) as [-> | (s & c & ->)]; [simpl in He; lia|].
  rewrite length_app in He. simpl in He.
  rewrite skipn_app. replace (e - length s) with 0 by lia. simpl.
  unfold ends_with_space. now rewrite !rev_app_distr.
Qed.

Lemma skipn_not_nil (e : nat) (x : str) : e < length x -> skipn e x <> [].
Proof.
  intros He H. apply (f_equal (@length ascii)) in H.
  rewrite length_skipn in H. simpl in H. lia.
Qed.

(** A pass over chunks with a solid end either uses them up in a line or
    leaves chunks with a solid end. *)
Lemma wrap_line_tail_solid (width : nat) (first_line : bool) (c : str) (cs : list str)
    (cur_line chunks' : list str) :
  0 < width ->
  tail_solid (c :: cs) ->
  wrap_line width first_line (c :: cs) = (cur_line, chunks') ->
  (chunks' = [] /\ cur_line <> []) \/ tail_solid chunks'.
Proof.
  intros Hw Hs H.
  destruct (wrap_line_anatomy _ _ _ _ _ _ Hw H)
    as (taken & chunks2 & cur_line1 & Hch & _ & Hcase & ->).
  assert (Hs1 : tail_solid (taken ++ chunks2)).
  { rewrite <- Hch. destruct (blank c && negb first_line) eqn:Eb; [|exact Hs].
    destruct cs as [|c1 cs1].
    - apply andb_true_iff in Eb. destruct Eb as [Eb _].
      destruct (proj1 (tail_solid_snoc [] c) Hs) as [Hs1 Hs2].
      rewrite (solid_not_blank c Hs1 Hs2) in Eb. discriminate.
    - now apply tail_solid_cons in Hs. }
  destruct Hcase as [(-> & -> & _) | (c0 & cs0 & e & -> & Hlong & He & _ & _ & -> & ->)].
  - destruct chunks2 as [|c0 cs0].
    + left. split; [reflexivity|]. rewrite app_nil_r in Hs1.
      destruct (list_snoc_cases taken) as [-> | (xs & x & ->)]; [contradiction|].
      rewrite drop_trailing_blank_snoc.
      destruct (proj1 (tail_solid_snoc xs x) Hs1) as [Hx1 Hx2].
      rewrite (solid_not_blank x Hx1 Hx2). now destruct xs.
    + right. now apply tail_solid_app in Hs1.
  - right. apply tail_solid_app in Hs1; [|discriminate].
    destruct cs0 as [|c1 cs1].
    + destruct (proj1 (tail_solid_snoc [] c0) Hs1) as [_ Hc0].
      apply (tail_solid_snoc []).
      split; [now apply skipn_not_nil|].
      rewrite ends_with_space_skipn by exact He. exact Hc0.
    + apply tail_solid_cons in Hs1; [|discriminate].
      now apply tail_solid_cons.
Qed.

(** The first pass over chunks with a solid start builds a line. *)
Lemma wrap_line_head_solid (width : nat) (c : str) (cs : list str)
    (cur_line chunks' : list str) :
  0 < width ->
  head_solid (c :: cs) ->
  wrap_line width true (c :: cs) = (cur_line, chunks') ->
  cur_line <> [].
Proof.
  intros Hw [Hc1 Hc2] H.
  destruct (wrap_line_anatomy _ _ _ _ _ _ Hw H)
    as (taken & chunks2 & cur_line1 & Hch & _ & Hcase & ->).
  rewrite andb_false_r in Hch.
  assert (Hfirst : exists x xs, cur_line1 = x :: xs /\ blank x = false).
  { destruct Hcase as [(-> & -> & Hnext) | (c0 & cs0 & e & -> & Hlong & He & _ & He1 & -> & ->)].
    - destruct taken as [|t ts].
      + simpl in Hch. subst chunks2. simpl in Hnext. lia.
      + inversion Hch; subst t. exists c, ts. split; [reflexivity|].
        now apply head_solid_not_blank.
    - destruct taken as [|t ts].
      + simpl in Hch. inversion Hch; subst c0 cs0.
        specialize (He1 eq_refl). exists (firstn e c), []. split; [reflexivity|].
        destruct c as [|ch s]; [contradiction|]. destruct e; [lia|].
        simpl in *. now rewrite Hc2.
      + inversion Hch; subst t. exists c, (ts ++ [firstn e c0]).
        split; [reflexivity | now apply head_solid_not_blank]. }
  destruct Hfirst as (x & xs & -> & Hx).
  destruct (list_snoc_cases xs) as [-> | (ys & y & ->)].
  - change [x] with ([] ++ [x]).
    rewrite (drop_trailing_blank_snoc [] x), Hx. discriminate.
  - rewrite app_comm_cons, drop_trailing_blank_snoc. destruct (blank y); [discriminate|].
    destruct ys; discriminate.
Qed.

(** The first pass does not use up a text longer than the width. *)
Lemma wrap_line_leaves_rest (width : nat) (c : str) (cs : list str)
    (cur_line chunks' : list str) :
  0 < width ->
  width < length (concat (c :: cs)) ->
  wrap_line width true (c :: cs) = (cur_line, chunks') ->
  chunks' <> [].
Proof.
  intros Hw Hlen H.
  destruct (wrap_line_anatomy _ _ _ _ _ _ Hw H)
    as (taken & chunks2 & cur_line1 & Hch & Htaken & Hcase & _).
  rewrite andb_false_r in Hch.
  destruct Hcase as [(_ & -> & _) | (c0 & cs0 & e & _ & _ & _ & _ & _ & _ & ->)];
    [|discriminate].
  intros ->. rewrite app_nil_r in Hch. subst taken. lia.
Qed.

(** *** The number of lines *)

Lemma wrap_loop_grows (width : nat) : forall fuel lines chunks lines',
  0 < width ->
  tail_solid chunks ->
  wrap_loop fuel width lines chunks = Some lines' ->
  length lines < length lines'.
Proof.
  induction fuel as [|fuel IH]; intros lines chunks lines' Hw Hs H.
  - destruct chunks; [contradiction | discriminate].
  - destruct chunks as [|c cs]; [contradiction|].
    cbn [wrap_loop] in H.
    destruct (wrap_line width _ (c :: cs)) as [cur_line chunks'] eqn:E.
    destruct (wrap_line_tail_solid _ _ _ _ _ _ Hw Hs E) as [[-> Hline] | Hs'].
    + destruct cur_line as [|x xs]; [contradiction|].
      destruct fuel; simpl in H; inversion H; subst;
        rewrite length_app; simpl; lia.
    + apply IH in H; [|exact Hw | exact Hs'].
      destruct cur_line; [exact H|].
      rewrite length_app in H. simpl in H. lia.
Qed.

(** Chunks with solid ends and more characters than the width give at
    least two lines. *)
Lemma wrap_chunks_two_lines (width : nat) (chunks lines : list str) :
  0 < width ->
  head_solid chunks -> tail_solid chunks ->
  width < length (concat chunks) ->
  wrap_chunks width chunks = Ok lines ->
  2 <= length lines.
Proof.
  intros Hw Hh Ht Hlen. unfold wrap_chunks.
  destruct (width =? 0); [discriminate|].
  destruct (wrap_loop _ _ _ _) as [lines0|] eqn:E; [|discriminate].
  intros H. inversion H; subst lines0.
  destruct chunks as [|c cs]; [contradiction|].
  cbn [wrap_loop] in E.
  destruct (wrap_line width true (c :: cs)) as [cur_line chunks'] eqn:El.
  pose proof (wrap_line_head_solid _ _ _ _ _ Hw Hh El) as Hline.
  pose proof (wrap_line_leaves_rest _ _ _ _ _ Hw Hlen El) as Hrest.
  destruct (wrap_line_tail_solid _ _ _ _ _ _ Hw Ht El) as [[-> _] | Hs'];
    [contradiction|].
  destruct cur_line as [|x xs]; [contradiction|].
  apply wrap_loop_grows in E; [|exact Hw | exact Hs']. simpl in E. lia.
Qed.

End WrapShape.

(** * Further properties *)

(** ** File names *)

Lemma filter_all_kept {A : Type} (p : A -> bool) (l : list A) :
  Forall (fun x => p x = true) l -> filter p l = l.
Proof.
  induction 1 as [|x l Hx _ IH]; simpl; [reflexivity|]. now rewrite Hx, IH.
Qed.

Lemma rstrip_fixed (s : str) : ends_with_space s = false -> rstrip s = s.
Proof.
  unfold rstrip, ends_with_space, starts_with_space. intros H.
  rewrite dropwhile_id by (destruct (rev s); [exact I | exact H]).
  apply rev_involutive.
Qed.

Lemma clean_filename_kept (text : str) :
  Forall (fun c => keep_char c = true) (clean_filename text).
Proof.
  apply Forall_forall. intros c H. now apply rstrip_incl, filter_In in H.
Qed.

(** X1: [clean_filename] is idempotent: a cleaned name is left as it is. *)
Theorem clean_filename_idempotent (text : str) :
  clean_filename (clean_filename text) = clean_filename text.
Proof.
  unfold clean_filename at 1.
  rewrite (filter_all_kept keep_char) by apply clean_filename_kept.
  apply rstrip_fixed, rstrip_no_trailing_space.
Qed.

(** X2: the texts that [clean_filename] returns unchanged are exactly
    those made of alphanumeric characters, spaces, underscores and hyphens
    that do not end with whitespace. *)
Theorem clean_filename_fixed_points (text : str) :
  clean_filename text = text
  <-> Forall filename_char text /\ ends_with_space text = false.
Proof.
  split.
  - intros H. rewrite <- H. split;
      [apply clean_filename_chars | apply rstrip_no_trailing_space].
  - intros [Hc He]. unfold clean_filename.
    rewrite (filter_all_kept keep_char).
    + now apply rstrip_fixed.
    + eapply Forall_impl; [|exact Hc]. intros c. apply keep_char_spec.
Qed.

(** ** [clean_url] *)

Lemma punctuation_underscore (c : ascii) :
  is_char 95 c = true -> is_punctuation c = true.
Proof.
  destruct c as [[] [] [] [] [] [] [] []]; vm_compute; intros H;
    first [ reflexivity | discriminate ].
Qed.

Lemma is_char_95 (c : ascii) : is_char 95 c = true -> c = UNDERSCORE.
Proof.
  destruct c as [[] [] [] [] [] [] [] []]; vm_compute; intros H;
    first [ reflexivity | discriminate ].
Qed.

Lemma remove_punctuation_clean (s : str) :
  Forall (fun c => is_punctuation c = false) (remove_punctuation s).
Proof.
  apply Forall_forall. intros c H. apply filter_In in H.
  destruct H as [_ H]. now apply negb_true_iff in H.
Qed.

Lemma not_underscore (c : ascii) : is_punctuation c = false -> is_char 95 c = false.
Proof.
  intros H. destruct (is_char 95 c) eqn:E; [|reflexivity].
  apply punctuation_underscore in E. congruence.
Qed.

Lemma rstrip_underscore_join (n p : str) :
  Forall (fun c => is_punctuation c = false) n ->
  Forall (fun c => is_punctuation c = false) p ->
  rstrip_chars (is_char 95) (n ++ UNDERSCORE :: p)
  = match p with [] => n | _ :: _ => n ++ UNDERSCORE :: p end.
Proof.
  intros Hn Hp. unfold rstrip_chars.
  destruct (WrapShape.list_snoc_cases p) as [-> | (q & c & ->)].
  - rewrite rev_app_distr. simpl.
    rewrite dropwhile_id; [apply rev_involutive|].
    destruct (rev n) as [|a r] eqn:E; [exact I|].
    apply not_underscore. rewrite Forall_forall in Hn. apply Hn.
    apply in_rev. rewrite E. now left.
  - assert (Hc : is_char 95 c = false).
    { apply not_underscore. rewrite Forall_forall in Hp. apply Hp.
      apply in_or_app. right. now left. }
    replace (n ++ UNDERSCORE :: q ++ [c]) with ((n ++ UNDERSCORE :: q) ++ [c])
      by (rewrite <- app_assoc; reflexivity).
    rewrite rev_app_distr. simpl. rewrite Hc. simpl.
    rewrite rev_involutive. now destruct q.
Qed.

(** X3: for a URL that parses, [clean_url] returns the host and the path
    without their punctuation, joined by one underscore; when nothing is
    left of the path the result is the cleaned host alone, with no
    underscore at its end.  The underscore of the join is the only
    punctuation of the result. *)
Theorem clean_url_shape (urlparse : str -> option ParseResult) (url : str)
    (parsed_url : ParseResult) :
  urlparse url = Some parsed_url ->
  let clean_netloc := remove_punctuation (netloc parsed_url) in
  let clean_path := remove_punctuation (strip_chars (is_char 47) (path parsed_url)) in
  clean_url urlparse url
  = Some (match clean_path with
          | [] => clean_netloc
          | _ :: _ => clean_netloc ++ UNDERSCORE :: clean_path
          end)
  /\ Forall (fun c => is_punctuation c = false) clean_netloc
  /\ Forall (fun c => is_punctuation c = false) clean_path.
Proof.
  intros H clean_netloc clean_path. unfold clean_url. rewrite H.
  fold clean_netloc clean_path.
  repeat split; try apply remove_punctuation_clean.
  f_equal. apply rstrip_underscore_join; apply remove_punctuation_clean.
Qed.

Lemma clean_url_shape_witness :
  clean_url (fun _ => Some {| netloc := lit "sub.example.com";
                              path := lit "/path-with/dashes/" |})
    (lit "https://sub.example.com/path-with/dashes/")
  = Some (lit "subexamplecom_pathwithdashes").
Proof.
  exact (proj1 (clean_url_shape
                  (fun _ => Some {| netloc := lit "sub.example.com";
                                    path := lit "/path-with/dashes/" |})
                  (lit "https://sub.example.com/path-with/dashes/")
                  _ eq_refl)).
Defined.

(** ** The size of the QR image *)

Section ImageSize.

Local Open Scope Z_scope.

(** X4: the QR image is a square whose side is a multiple of the native
    width of the symbol.  When the symbol is not wider than the target size
    the side is at most the target and misses it by less than one native
    width; a symbol wider than the target is kept at its native width. *)
Theorem qr_image_side (w : World) (url : str) (qr : QRCode) (qr_size : Z) (img : Image) :
  segno_make w url = Some qr ->
  create_qr_code w url qr_size = Ok img ->
  height img = width img
  /\ width img = native_width qr * qr_scale qr qr_size
  /\ (native_width qr <= qr_size ->
      qr_size - native_width qr < width img <= qr_size)
  /\ (qr_size < native_width qr -> width img = native_width qr).
Proof.
  intros Hqr Himg. rewrite (create_qr_code_ok w url qr qr_size Hqr) in Himg.
  inversion Himg; subst img; cbn [width height]. clear Himg.
  pose proof (native_width_pos qr) as Hw.
  rewrite qr_scale_eq.
  pose proof (Z.mul_div_le qr_size (native_width qr) Hw) as Hle.
  pose proof (Z.mod_pos_bound qr_size (native_width qr) Hw) as Hmod.
  pose proof (Z.div_mod qr_size (native_width qr) ltac:(lia)) as Hdm.
  split; [reflexivity|]. split; [reflexivity|]. split.
  - intros Hfit.
    assert (1 <= qr_size / native_width qr)
      by (apply Z.div_le_lower_bound; lia).
    rewrite Z.max_l by lia. lia.
  - intros Hbig.
    assert (qr_size / native_width qr < 1)
      by (apply Z.div_lt_upper_bound; lia).
    rewrite Z.max_r by lia. lia.
Qed.

Lemma qr_image_side_witness :
  exists img,
    create_qr_code example_world (lit "https://example.com") 2000 = Ok img
    /\ (2000 - 37 < width img <= 2000).
Proof.
  exists {| width := 1998; height := 1998 |}. split; [reflexivity|].
  apply (qr_image_side example_world (lit "https://example.com")
           {| version := 3 |} 2000 _ eq_refl eq_refl).
  vm_compute. discriminate.
Defined.

End ImageSize.

(** ** The composed page *)

Section PageLayout.

Local Open Scope Z_scope.

Variable w : World.
Variable font_path : option str.

Lemma draw_lines_text (font : Font) (page_width gap : Z) : forall lines current_y,
  map text (fst (draw_lines font page_width gap current_y lines)) = lines.
Proof.
  induction lines as [|line rest IH]; intros current_y; [reflexivity|].
  cbn [draw_lines]. specialize (IH (current_y + (line_height font line + gap))).
  destruct (draw_lines _ _ _ _ rest) as [ds y']. cbn [fst map text] in *.
  now rewrite IH.
Qed.

(** The cursor of a block: every line starts at or below the start of the
    block and ends, with its gap, at or above the end. *)
Lemma draw_lines_stacked (font : Font) (page_width gap : Z) : forall lines current_y,
  0 <= gap ->
  (forall line, In line lines -> 0 <= line_height font line) ->
  current_y <= snd (draw_lines font page_width gap current_y lines)
  /\ Forall (fun d => current_y <= y d
                      /\ y d + line_height font (text d) + gap
                         <= snd (draw_lines font page_width gap current_y lines))
            (fst (draw_lines font page_width gap current_y lines)).
Proof.
  induction lines as [|line rest IH]; intros current_y Hgap Hh.
  - simpl. split; [lia | constructor].
  - cbn [draw_lines].
    specialize (IH (current_y + (line_height font line + gap)) Hgap
                  (fun l Hl => Hh l (or_intror Hl))).
    pose proof (Hh line (or_introl eq_refl)) as Hline.
    destruct (draw_lines _ _ _ _ rest) as [ds y']. cbn [fst snd] in *.
    destruct IH as [IH1 IH2]. split; [lia|].
    constructor; [cbn [y text]; lia|].
    eapply Forall_impl; [|exact IH2]. cbn beta. intros d Hd. lia.
Qed.

(** The parts of a composed page, as the composer computes them. *)
Lemma compose_inversion (title url : str) (page_size : Z * Z) (page : Page) :
  create_full_page_image w font_path title url page_size = Ok page ->
  exists title_wrapped img font_size url_wrapped,
    TextWrap.wrap 30 title = Ok title_wrapped
    /\ create_qr_code w url 2000 = Ok img
    /\ fit_url w font_path url (fst page_size - 2 * 300) 80 = Ok (font_size, url_wrapped)
    /\ let title_block :=
         draw_lines (get_font w font_path 150) (fst page_size) 20 300 title_wrapped in
       let qr_y := snd title_block + 100 in
       page = {| size := page_size;
                 title_lines := fst title_block;
                 qr_box := ((fst page_size - width img) / 2 - 20, qr_y - 20);
                 qr_box_size := (width img + 2 * 20, height img + 2 * 20);
                 url_font_size := font_size;
                 url_lines :=
                   fst (draw_lines (get_font w font_path font_size) (fst page_size) 10
                          (qr_y + (height img + 2 * 20) + 100) url_wrapped) |}.
Proof.
  unfold create_full_page_image.
  destruct ((fst page_size <? 0) || (snd page_size <? 0)); [discriminate|].
  destruct (TextWrap.wrap 30 title) as [title_wrapped|e]; cbn [bind]; [|discriminate].
  destruct (draw_lines _ _ _ _ title_wrapped) as [title_drawn y1] eqn:Et.
  destruct (create_qr_code w url 2000) as [img|e]; cbn [bind]; [|discriminate].
  destruct (fit_url w font_path url (fst page_size - 2 * 300) 80)
    as [[font_size url_wrapped]|e]; cbn [bind]; [|discriminate].
  destruct (draw_lines _ _ _ _ url_wrapped) as [url_drawn y2] eqn:Eu.
  intros H. inversion H; subst page. clear H.
  exists title_wrapped, img, font_size, url_wrapped.
  repeat split. cbn zeta. cbn zeta in Et. rewrite Et. cbn [fst snd].
  cbn [snd] in Eu. rewrite Eu. reflexivity.
Qed.

(** The URL block is the URL wrapped at 60 characters, at every font
    size. *)
Lemma fit_url_lines (url : str) (max_text_width font_size : Z) (lines : list str) :
  fit_url w font_path url max_text_width 80 = Ok (font_size, lines) ->
  TextWrap.wrap 60 url = Ok lines.
Proof.
  intros H. destruct (WrapFacts.wrap_total 60 url) as (lines0 & Hwrap & _); [lia|].
  destruct (fit_loop_from_80 w font_path url max_text_width lines0 Hwrap)
    as (k & _ & _ & _ & Hrun).
  unfold fit_url in H. rewrite Hwrap in H. cbn [bind] in H.
  change (passes_from 80) with 21%nat in H.
  assert (Hfuel : (k < 21)%nat \/ (21 <= k)%nat) by lia.
  destruct Hfuel as [Hfuel | Hfuel].
  - rewrite (proj1 (Hrun 21%nat) Hfuel) in H. congruence.
  - destruct (fit_loop_cases w font_path url max_text_width lines0 Hwrap 21 80)
      as [(k' & _ & Hrun' & _) | (Hrun' & _)]; rewrite Hrun' in H; congruence.
Qed.


(** X6: the title block of a page is the title wrapped at 30 characters
    and the URL block is the URL wrapped at 60 characters, whatever font
    size the shrinking ends with; so no title line has more than 30
    characters and no URL line more than 60. *)
Theorem page_text_blocks (title url : str) (page_size : Z * Z) (page : Page) :
  create_full_page_image w font_path title url page_size = Ok page ->
  TextWrap.wrap 30 title = Ok (title_text page)
  /\ TextWrap.wrap 60 url = Ok (url_text page)
  /\ Forall (fun line => (length line <= 30)%nat) (title_text page)
  /\ Forall (fun line => (length line <= 60)%nat) (url_text page).
Proof.
  intros H.
  destruct (compose_inversion title url page_size page H)
    as (title_wrapped & img & font_size & url_wrapped & Ht & _ & Hu & ->).
  cbn zeta. unfold title_text, url_text. cbn [title_lines url_lines].
  rewrite !draw_lines_text. apply fit_url_lines in Hu.
  destruct (WrapFacts.wrap_total 30 title) as (l1 & H1 & Hl1); [lia|].
  destruct (WrapFacts.wrap_total 60 url) as (l2 & H2 & Hl2); [lia|].
  rewrite H1 in Ht. rewrite H2 in Hu.
  inversion Ht; subst l1. inversion Hu; subst l2.
  now repeat split.
Qed.

(** X7: on a page composed with fonts whose boxes have
    [0 <= bbox[1] <= bbox[3]], the three blocks follow each other
    downwards.  The ink of every title line starts at or below the top
    margin of 300; it ends [100 - bbox[1]] pixels or more above the
    bordered QR code, where [bbox[1]] is the offset of the ink of the line
    below its drawing position, so it stays clear of the code when that
    offset is at most 100.  The bordered QR code starts at 380 or below,
    and the ink of every URL line starts at least 120 pixels below it. *)
Theorem page_blocks_stacked (title url : str) (page_size : Z * Z) (page : Page) :
  (forall font_size line,
      0 <= bbox_top (get_font w font_path font_size) line
        <= bbox_bottom (get_font w font_path font_size) line) ->
  create_full_page_image w font_path title url page_size = Ok page ->
  let box_top := snd (qr_box page) in
  let box_bottom := box_top + snd (qr_box_size page) in
  let title_font := get_font w font_path 150 in
  let url_font := get_font w font_path (url_font_size page) in
  380 <= box_top
  /\ Forall (fun d => 300 <= ink_top title_font d
                      /\ ink_bottom title_font d + 100
                         <= box_top + bbox_top title_font (text d)
                      /\ (bbox_top title_font (text d) <= 100 ->
                          ink_bottom title_font d <= box_top))
            (title_lines page)
  /\ Forall (fun d => box_bottom + 120 <= ink_top url_font d) (url_lines page).
Proof.
  intros Hbox H.
  assert (Hh : forall font_size line,
             0 <= line_height (get_font w font_path font_size) line).
  { intros font_size line. specialize (Hbox font_size line).
    unfold line_height, bbox_top, bbox_bottom in *.
    destruct (getbbox _ line) as [[[x0 y0] x1] y1]. lia. }
  destruct (compose_inversion title url page_size page H)
    as (title_wrapped & img & font_size & url_wrapped & _ & _ & _ & ->).
  cbn zeta. cbn [qr_box qr_box_size title_lines url_lines url_font_size fst snd].
  pose proof (draw_lines_stacked (get_font w font_path 150) (fst page_size) 20
                title_wrapped 300 ltac:(lia) (fun l _ => Hh 150 l)) as [Ht1 Ht2].
  set (y1 := snd (draw_lines (get_font w font_path 150) (fst page_size) 20 300
                    title_wrapped)) in *.
  pose proof (draw_lines_stacked (get_font w font_path font_size) (fst page_size) 10
                url_wrapped (y1 + 100 + (height img + 2 * 20) + 100) ltac:(lia)
                (fun l _ => Hh font_size l)) as [_ Hu2].
  split; [lia|]. split.
  - eapply Forall_impl; [|exact Ht2]. cbn beta. intros d Hd.
    specialize (Hbox 150 (text d)).
    unfold ink_top, ink_bottom, line_height, bbox_top, bbox_bottom in *.
    destruct (getbbox _ (text d)) as [[[x0 y0] x1] y1']. lia.
  - eapply Forall_impl; [|exact Hu2]. cbn beta. intros d Hd.
    specialize (Hbox font_size (text d)).
    unfold ink_top, bbox_top, bbox_bottom in *.
    destruct (getbbox _ (text d)) as [[[x0 y0] x1] y1']. lia.
Qed.

(** X8: the bordered QR code is centred: the space left of it and the
    space right of it differ by at most one pixel, and the border adds 20
    pixels on each side of the QR image. *)
Theorem qr_box_centred (title url : str) (page_size : Z * Z) (page : Page) :
  create_full_page_image w font_path title url page_size = Ok page ->
  let left := fst (qr_box page) in
  let right := fst page_size - (left + fst (qr_box_size page)) in
  0 <= right - left <= 1
  /\ exists img,
       create_qr_code w url 2000 = Ok img
       /\ qr_box_size page = (width img + 40, height img + 40).
Proof.
  intros H.
  destruct (compose_inversion title url page_size page H)
    as (title_wrapped & img & font_size & url_wrapped & _ & Himg & _ & ->).
  cbn zeta. cbn [qr_box qr_box_size fst snd]. split.
  - pose proof (Z.div_mod (fst page_size - width img) 2 ltac:(lia)).
    pose proof (Z.mod_pos_bound (fst page_size - width img) 2 ltac:(lia)). lia.
  - exists img. split; [exact Himg | reflexivity].
Qed.

End PageLayout.


Lemma page_text_blocks_witness :
  exists page,
    create_full_page_image example_world None (lit "Team Meeting")
      (lit "https://example.com/meet") letter_page = Ok page
    /\ TextWrap.wrap 30 (lit "Team Meeting") = Ok (title_text page).
Proof.
  eexists. split.
  - vm_compute. reflexivity.
  - apply (page_text_blocks example_world None (lit "Team Meeting")
             (lit "https://example.com/meet") letter_page).
    vm_compute. reflexivity.
Defined.

Lemma offset_font_box (font_size : Z) (line : str) :
  (0 <= bbox_top (get_font offset_world None font_size) line
     <= bbox_bottom (get_font offset_world None font_size) line)%Z.
Proof. unfold bbox_top, bbox_bottom; simpl. lia. Qed.

Lemma page_blocks_stacked_witness :
  exists page,
    create_full_page_image offset_world None (lit "Team Meeting")
      (lit "https://example.com/meet") letter_page = Ok page
    /\ snd (qr_box page) = 538%Z
    /\ map (ink_bottom offset_font) (title_lines page) = [478%Z]
    /\ Forall (fun d => (300 <= ink_top offset_font d
                         /\ ink_bottom offset_font d + 100
                            <= 538 + bbox_top offset_font (text d)
                         /\ (bbox_top offset_font (text d) <= 100 ->
                             ink_bottom offset_font d <= 538))%Z)
              (title_lines page).
Proof.
  eexists. split; [vm_compute; reflexivity|].
  split; [reflexivity|]. split; [reflexivity|].
  match goal with
  | |- Forall _ (title_lines ?page) =>
      destruct (page_blocks_stacked offset_world None (lit "Team Meeting")
                  (lit "https://example.com/meet") letter_page page
                  offset_font_box) as (_ & Htitle & _);
        [vm_compute; reflexivity | exact Htitle]
  end.
Defined.

Lemma qr_box_centred_witness :
  exists page,
    create_full_page_image example_world None (lit "Team Meeting")
      (lit "https://example.com/meet") letter_page = Ok page
    /\ (0 <= 2550 - (fst (qr_box page) + fst (qr_box_size page)) - fst (qr_box page)
        <= 1)%Z.
Proof.
  eexists. split.
  - vm_compute. reflexivity.
  - apply (qr_box_centred example_world None (lit "Team Meeting")
             (lit "https://example.com/meet") letter_page).
    vm_compute. reflexivity.
Defined.

(** X9: on the default page of 2550 pixels, a QR symbol of a standard
    version (at most 40) gives a bordered code between 1856 and 2040 pixels
    wide that keeps at least 255 pixels to each side of the page. *)
Theorem qr_box_within_letter_page (w : World) (font_path : option str)
    (title url : str) (qr : QRCode) (page : Page) :
  segno_make w url = Some qr ->
  (version qr <= 40)%nat ->
  create_full_page_image w font_path title url letter_page = Ok page ->
  let left := fst (qr_box page) in
  let box_width := fst (qr_box_size page) in
  (1856 <= box_width <= 2040
   /\ 255 <= left
   /\ left + box_width <= 2550 - 255)%Z.
Proof.
  intros Hqr Hv H.
  destruct (compose_inversion w font_path title url letter_page page H)
    as (title_wrapped & img & font_size & url_wrapped & _ & Himg & _ & ->).
  cbn zeta. cbn [qr_box qr_box_size fst snd letter_page].
  rewrite (create_qr_code_ok w url qr 2000 Hqr) in Himg.
  inversion Himg; subst img; cbn [width height]. clear Himg.
  rewrite qr_scale_eq.
  assert (Hn : (25 <= native_width qr <= 185)%Z)
    by (unfold native_width, symbol_size; cbn [fst]; lia).
  set (n := native_width qr) in *.
  pose proof (Z.div_mod 2000 n ltac:(lia)) as Hdm.
  pose proof (Z.mod_pos_bound 2000 n ltac:(lia)) as Hmod.
  assert (Hq : (1 <= 2000 / n)%Z) by (apply Z.div_le_lower_bound; lia).
  rewrite Z.max_l by lia.
  set (side := (n * (2000 / n))%Z) in *.
  assert (Hside : (1815 < side <= 2000)%Z) by lia.
  pose proof (Z.div_mod (2550 - side) 2 ltac:(lia)).
  pose proof (Z.mod_pos_bound (2550 - side) 2 ltac:(lia)). lia.
Qed.

Lemma qr_box_within_letter_page_witness :
  exists page,
    create_full_page_image example_world None (lit "Team Meeting")
      (lit "https://example.com/meet") letter_page = Ok page
    /\ (255 <= fst (qr_box page))%Z.
Proof.
  eexists. split.
  - vm_compute. reflexivity.
  - apply (qr_box_within_letter_page example_world None (lit "Team Meeting")
             (lit "https://example.com/meet") {| version := 3 |});
      [reflexivity | vm_compute; lia | vm_compute; reflexivity].
Defined.

(** ** Runs of [process_csv] *)

Section BatchRuns.

Variable w : World.
Variable save_to_dir : str.
Variable font_path : option str.

(** On the default page the composer returns a page or raises the
    exception of the QR library, according to the URL alone. *)
Lemma compose_cases (title url : str) :
  (segno_make w url = None
   /\ create_full_page_image w font_path title url letter_page = Raise EncodingError)
  \/ (exists page, create_full_page_image w font_path title url letter_page = Ok page).
Proof.
  unfold create_full_page_image.
  change ((fst letter_page <? 0)%Z || (snd letter_page <? 0)%Z) with false.
  cbv iota.
  destruct (WrapFacts.wrap_total 30 title) as (title_wrapped & -> & _); [lia|].
  cbn [bind]. destruct (draw_lines _ _ _ _ title_wrapped) as [title_drawn y1].
  destruct (segno_make w url) as [qr|] eqn:Eq.
  - right. rewrite (create_qr_code_ok w url qr 2000 Eq). cbn [bind].
    destruct (WrapFacts.wrap_total 60 url) as (lines & Hwrap & _); [lia|].
    destruct (fit_loop_from_80 w font_path url (fst letter_page - 2 * 300)%Z lines Hwrap)
      as (k & Hk & _ & _ & Hrun).
    unfold fit_url. rewrite Hwrap. cbn [bind].
    change (passes_from 80) with 21.
    rewrite (proj1 (Hrun 21)) by lia. cbn [bind].
    destruct (draw_lines _ _ _ _ lines) as [url_drawn y2]. eexists. reflexivity.
  - left. split; [reflexivity|]. unfold create_qr_code. now rewrite Eq.
Qed.

(** The calls of a run split into those whose page was saved and, when
    the run raised, the one that failed: its URL is one that the QR
    library rejects, or its page was composed and the save raised. *)
Lemma process_entries_outcome : forall entries index,
  let run := process_entries w save_to_dir font_path index entries [] in
  exists composed failed,
    calls (fst run) = composed ++ failed
    /\ saved (fst run) = map png_name composed
    /\ ((snd run = Ok tt /\ failed = [])
        \/ exists title url,
             failed = [(title, url)]
             /\ ((snd run = Raise EncodingError /\ segno_make w url = None)
                 \/ (snd run = Raise OSError
                     /\ (exists page,
                           create_full_page_image w font_path title url letter_page
                           = Ok page)
                     /\ save_png w save_to_dir (png_name (title, url)) = false))).
Proof.
  induction entries as [|entry rest IH]; intros index.
  - exists [], []. cbn. repeat split. now left.
  - cbn zeta. cbn [process_entries].
    destruct (IH (S index)) as (composed & failed & Hc & Hs & Hr). cbn zeta in *.
    destruct entry as [|title0 [|url0 more]].
    + rewrite process_entries_log. cbn [fst snd].
      rewrite calls_app, saved_app. exists composed, failed. now repeat split.
    + rewrite process_entries_log. cbn [fst snd].
      rewrite calls_app, saved_app. exists composed, failed. now repeat split.
    + destruct (strip url0) as [|u us] eqn:Eu.
      * rewrite process_entries_log. cbn [fst snd].
        rewrite calls_app, saved_app. exists composed, failed. now repeat split.
      * rewrite <- Eu.
        destruct (compose_cases (strip title0) (strip url0)) as [[Hn ->] | [page Hpage]].
        -- exists [], [(strip title0, strip url0)]. cbn.
           repeat split. right. exists (strip title0), (strip url0).
           split; [reflexivity|]. left. now split.
        -- rewrite Hpage.
           destruct (save_png w save_to_dir (clean_filename (strip title0) ++ lit ".png"))
             eqn:Es.
           ++ rewrite process_entries_log. cbn [fst snd].
              rewrite calls_app, saved_app.
              exists ((strip title0, strip url0) :: composed), failed.
              cbn. rewrite Hc, Hs. now repeat split.
           ++ exists [], [(strip title0, strip url0)]. cbn.
              repeat split. right. exists (strip title0), (strip url0).
              split; [reflexivity|]. right.
              split; [reflexivity|]. split; [now exists page | exact Es].
Qed.

End BatchRuns.

(** X10: in every run of [process_csv], also one that raises, the pages
    are composed for the first valid rows of the file, in file order: the
    calls are an initial segment of the valid rows. *)
Theorem process_csv_calls_prefix (w : World) (entries : list (list str))
    (save_to_dir font_path : str) :
  exists later,
    map row_call (filter valid_row entries)
    = calls (fst (process_csv w entries save_to_dir font_path)) ++ later.
Proof. apply process_entries_calls_prefix. Qed.

(** X11: every file that a run writes is named after the stripped title
    of its row: the cleaned title followed by [.png].  Before the suffix
    the name holds only alphanumeric characters, spaces, underscores and
    hyphens, so it names a file of the output directory itself. *)
Theorem process_csv_saved_names (w : World) (entries : list (list str))
    (save_to_dir font_path : str) :
  let run := process_csv w entries save_to_dir font_path in
  (exists composed later,
      calls (fst run) = composed ++ later
      /\ saved (fst run) = map png_name composed)
  /\ Forall (fun filename =>
               exists base, filename = base ++ lit ".png" /\ Forall filename_char base)
            (saved (fst run)).
Proof.
  cbn zeta. unfold process_csv.
  destruct (process_entries_outcome w save_to_dir (font_path_of font_path) entries 1)
    as (composed & failed & Hc & Hs & _). cbn zeta in *.
  split; [now exists composed, failed|].
  rewrite Hs. apply Forall_forall. intros filename Hin.
  apply in_map_iff in Hin. destruct Hin as (call & <- & _).
  exists (clean_filename (fst call)). split; [reflexivity|].
  apply clean_filename_chars.
Qed.



(** ** The single-entry worker *)

Lemma get_font_ext (w : World) (fp1 fp2 : option str) :
  (forall font_size, get_font w fp1 font_size = get_font w fp2 font_size) ->
  forall title url page_size,
    create_full_page_image w fp1 title url page_size
    = create_full_page_image w fp2 title url page_size.
Proof.
  intros Hf title url page_size.
  assert (Hloop : forall fuel mw fs lines,
             fit_loop w fp1 fuel url mw fs lines = fit_loop w fp2 fuel url mw fs lines).
  { induction fuel as [|fuel IH]; intros mw fs lines; [reflexivity|].
    cbn [fit_loop]. rewrite Hf.
    destruct (_ || _); [reflexivity|].
    destruct (TextWrap.wrap 60 url); cbn [bind]; [apply IH | reflexivity]. }
  unfold create_full_page_image, fit_url.
  destruct ((fst page_size <? 0)%Z || (snd page_size <? 0)%Z); [reflexivity|].
  rewrite Hf.
  destruct (TextWrap.wrap 30 title); cbn [bind]; [|reflexivity].
  destruct (draw_lines _ _ _ _ _) as [title_drawn y1].
  destruct (create_qr_code w url 2000); cbn [bind]; [|reflexivity].
  destruct (TextWrap.wrap 60 url) as [lines|e]; cbn [bind]; [|reflexivity].
  rewrite Hloop.
  destruct (fit_loop w fp2 _ url _ 80 lines) as [[font_size url_wrapped]|e];
    cbn [bind]; [|reflexivity].
  now rewrite Hf.
Qed.



(** ** Wrapping: what the lines hold *)

Module WrapContent.
Import TextWrap WrapFacts WrapShape SplitFacts.

Lemma solid_chars_app (a b : str) : solid_chars (a ++ b) = solid_chars a ++ solid_chars b.
Proof. apply filter_app. Qed.

Lemma blank_solid (c : str) : blank c = true -> solid_chars c = [].
Proof.
  unfold blank, solid_chars. induction c as [|ch c IH]; simpl; [reflexivity|].
  intros H. apply andb_true_iff in H. destruct H as [H1 H2].
  rewrite H1. simpl. now apply IH.
Qed.

Lemma solid_chars_id (s : str) :
  Forall (fun c => isspace c = false) s -> solid_chars s = s.
Proof.
  intros H. apply filter_all_kept. eapply Forall_impl; [|exact H].
  intros c Hc. now rewrite Hc.
Qed.

Lemma drop_trailing_blank_solid (l : list str) :
  solid_chars (concat (drop_trailing_blank l)) = solid_chars (concat l).
Proof.
  destruct (list_snoc_cases l) as [-> | (xs & x & ->)]; [reflexivity|].
  rewrite drop_trailing_blank_snoc. destruct (blank x) eqn:E; [|reflexivity].
  rewrite concat_snoc, solid_chars_app, (blank_solid x E). now rewrite app_nil_r.
Qed.

Lemma drop_trailing_blank_incl (l : list str) (ch : ascii) :
  In ch (concat (drop_trailing_blank l)) -> In ch (concat l).
Proof.
  destruct (list_snoc_cases l) as [-> | (xs & x & ->)]; [tauto|].
  rewrite drop_trailing_blank_snoc. destruct (blank x); [|tauto].
  rewrite concat_snoc. intros H. apply in_or_app. now left.
Qed.

(** A pass moves the characters of the chunks to the line or leaves them
    in the chunks, in order; it loses only spaces. *)
Lemma wrap_line_solid (width : nat) (first_line : bool) (c : str) (cs : list str)
    (cur_line chunks' : list str) :
  0 < width ->
  wrap_line width first_line (c :: cs) = (cur_line, chunks') ->
  solid_chars (concat cur_line) ++ solid_chars (concat chunks')
  = solid_chars (concat (c :: cs))
  /\ (forall ch, In ch (concat cur_line) \/ In ch (concat chunks') ->
                 In ch (concat (c :: cs))).
Proof.
  intros Hw H.
  destruct (wrap_line_anatomy _ _ _ _ _ _ Hw H)
    as (taken & chunks2 & cur_line1 & Hch & _ & Hcase & ->).
  assert (Hsolid : solid_chars (concat (taken ++ chunks2)) = solid_chars (concat (c :: cs))
                   /\ forall ch, In ch (concat (taken ++ chunks2)) -> In ch (concat (c :: cs))).
  { rewrite <- Hch. destruct (blank c && negb first_line) eqn:Eb; [|now split].
    apply andb_true_iff in Eb. destruct Eb as [Eb _]. split.
    - cbn [concat]. now rewrite solid_chars_app, (blank_solid c Eb).
    - intros ch Hin. cbn [concat]. apply in_or_app. now right. }
  destruct Hsolid as [Hsolid Hincl].
  rewrite drop_trailing_blank_solid.
  assert (Hall : concat cur_line1 ++ concat chunks' = concat (taken ++ chunks2)).
  { destruct Hcase as [(-> & -> & _) | (c0 & cs0 & e & -> & _ & _ & _ & _ & -> & ->)].
    - now rewrite concat_app.
    - rewrite concat_snoc, !concat_app. cbn [concat].
      rewrite <- !app_assoc. f_equal. rewrite app_assoc. f_equal.
      apply firstn_skipn. }
  split.
  - rewrite <- solid_chars_app, Hall. exact Hsolid.
  - intros ch Hin. apply Hincl. rewrite <- Hall. apply in_or_app.
    destruct Hin as [Hin | Hin]; [left | now right].
    now apply drop_trailing_blank_incl.
Qed.

Lemma wrap_loop_solid (width : nat) : forall fuel lines chunks lines',
  0 < width ->
  wrap_loop fuel width lines chunks = Some lines' ->
  solid_chars (concat lines') = solid_chars (concat lines) ++ solid_chars (concat chunks)
  /\ (forall ch, In ch (concat lines') -> In ch (concat lines) \/ In ch (concat chunks)).
Proof.
  induction fuel as [|fuel IH]; intros lines chunks lines' Hw H.
  - destruct chunks; [|discriminate]. inversion H; subst.
    simpl. rewrite app_nil_r. split; [reflexivity | tauto].
  - destruct chunks as [|c cs].
    + inversion H; subst. simpl. rewrite app_nil_r. split; [reflexivity | tauto].
    + cbn [wrap_loop] in H.
      destruct (wrap_line width _ (c :: cs)) as [cur_line chunks'] eqn:E.
      destruct (wrap_line_solid _ _ _ _ _ _ Hw E) as [Hs Hi].
      apply IH in H; [|exact Hw]. destruct H as [H1 H2].
      assert (Hlines : concat (match cur_line with
                               | [] => lines
                               | _ :: _ => lines ++ [concat cur_line]
                               end) = concat lines ++ concat cur_line).
      { destruct cur_line; [simpl; now rewrite app_nil_r | apply concat_snoc]. }
      rewrite Hlines in H1, H2. split.
      * rewrite H1, solid_chars_app, <- app_assoc. now rewrite Hs.
      * intros ch Hin. apply H2 in Hin. rewrite in_app_iff in Hin.
        destruct Hin as [[Hin | Hin] | Hin]; [now left | right; apply Hi; now left |
                                              right; apply Hi; now right].
Qed.

(** Munging changes whitespace only. *)
Lemma munge_from_solid : forall (s : str) line_pos,
  solid_chars (translate_ws (expandtabs_from 8 line_pos s)) = solid_chars s.
Proof.
  induction s as [|c rest IH]; intros line_pos; [reflexivity|].
  cbn [expandtabs_from]. destruct (is_char 9 c) eqn:Et.
  - change (0 <? 8) with true. cbn iota.
    unfold translate_ws. rewrite map_app. fold (translate_ws (expandtabs_from 8
      (line_pos + (8 - line_pos mod 8)) rest)).
    rewrite solid_chars_app, IH.
    assert (Hsp : solid_chars (map (fun c0 => if is_ws c0 then SPACE else c0)
                                 (repeat SPACE (8 - line_pos mod 8))) = []).
    { induction (8 - line_pos mod 8) as [|n IHn]; [reflexivity | exact IHn]. }
    rewrite Hsp. cbn [app solid_chars filter].
    now rewrite (is_ws_isspace c (is_ws_tab c Et)).
  - cbn [translate_ws map]. fold (translate_ws (expandtabs_from 8
      (if is_char 10 c || is_char 13 c then 0 else S line_pos) rest)).
    cbn [solid_chars filter]. fold (solid_chars rest).
    fold (solid_chars (translate_ws (expandtabs_from 8
      (if is_char 10 c || is_char 13 c then 0 else S line_pos) rest))).
    rewrite IH. destruct (is_ws c) eqn:Ew.
    + now rewrite (is_ws_isspace c Ew).
    + reflexivity.
Qed.

Lemma munge_solid (s : str) : solid_chars (munge_whitespace s) = solid_chars s.
Proof. apply munge_from_solid. Qed.

Lemma munge_from_no_space : forall (s : str) line_pos,
  Forall (fun c => isspace c = false) s ->
  translate_ws (expandtabs_from 8 line_pos s) = s.
Proof.
  induction s as [|c rest IH]; intros line_pos H; [reflexivity|].
  inversion H as [|c' rest' Hc Hrest]; subst.
  assert (Hw : is_ws c = false).
  { destruct (is_ws c) eqn:E; [|reflexivity]. apply is_ws_isspace in E. congruence. }
  assert (Ht : is_char 9 c = false).
  { destruct (is_char 9 c) eqn:E; [|reflexivity]. apply is_ws_tab in E. congruence. }
  cbn [expandtabs_from]. rewrite Ht. cbn [translate_ws map]. rewrite Hw.
  f_equal. now apply IH.
Qed.

Lemma munge_no_space (s : str) :
  Forall (fun c => isspace c = false) s -> munge_whitespace s = s.
Proof. apply munge_from_no_space. Qed.

Lemma wrap_solid (width : nat) (s : str) (lines : list str) :
  wrap width s = Ok lines ->
  solid_chars (concat lines) = solid_chars s
  /\ (forall ch, In ch (concat lines) -> In ch (munge_whitespace s)).
Proof.
  unfold wrap, wrap_chunks. destruct (width =? 0) eqn:Ew; [discriminate|].
  apply Nat.eqb_neq in Ew.
  destruct (wrap_loop _ _ _ _) as [lines0|] eqn:E; [|discriminate].
  intros H. inversion H; subst lines0.
  apply wrap_loop_solid in E; [|lia]. destruct E as [E1 E2].
  unfold split_chunks in *.
  rewrite (proj1 (split_concat (munge_whitespace s))) in E1, E2.
  split; [now rewrite E1, munge_solid|].
  intros ch Hin. apply E2 in Hin. destruct Hin as [[] | Hin]. exact Hin.
Qed.

End WrapContent.

(** X14: wrapping loses nothing but whitespace: the characters of the
    lines that are not spaces are those of the text, in the same order.  A
    text without any space character, such as a URL, is therefore the
    concatenation of its lines. *)
Theorem wrap_keeps_text (width : nat) (s : str) (lines : list str) :
  TextWrap.wrap width s = Ok lines ->
  solid_chars (concat lines) = solid_chars s
  /\ (Forall (fun c => isspace c = false) s -> concat lines = s).
Proof.
  intros H. destruct (WrapContent.wrap_solid width s lines H) as [H1 H2].
  split; [exact H1|]. intros Hs.
  rewrite (WrapContent.munge_no_space s Hs) in H2.
  rewrite <- (WrapContent.solid_chars_id (concat lines)).
  - now rewrite H1, WrapContent.solid_chars_id.
  - apply Forall_forall. intros ch Hin. rewrite Forall_forall in Hs.
    now apply Hs, H2.
Qed.

Lemma wrap_keeps_text_witness :
  TextWrap.wrap 10 (lit "https://example.com/meet")
  = Ok [lit "https://ex"; lit "ample.com/"; lit "meet"]
  /\ concat [lit "https://ex"; lit "ample.com/"; lit "meet"]
     = lit "https://example.com/meet".
Proof.
  assert (H : TextWrap.wrap 10 (lit "https://example.com/meet")
              = Ok [lit "https://ex"; lit "ample.com/"; lit "meet"])
    by (vm_compute; reflexivity).
  split; [exact H|].
  apply (proj2 (wrap_keeps_text 10 _ _ H)).
  repeat constructor.
Defined.

(** ** Wrapping: how many lines *)

Module WrapCount.
Import TextWrap WrapFacts WrapShape SplitFacts.

Lemma not_space_not_ws (c : ascii) : isspace c = false -> is_ws c = false.
Proof.
  intros H. destruct (is_ws c) eqn:E; [|reflexivity].
  apply is_ws_isspace in E. congruence.
Qed.

Lemma not_space_not_tab (c : ascii) : isspace c = false -> is_char 9 c = false.
Proof.
  intros H. destruct (is_char 9 c) eqn:E; [|reflexivity].
  apply is_ws_tab, is_ws_isspace in E. congruence.
Qed.

Lemma munge_head (c : ascii) (s : str) :
  isspace c = false ->
  exists s', munge_whitespace (c :: s) = c :: s'.
Proof.
  intros H. unfold munge_whitespace, expandtabs. cbn [expandtabs_from].
  rewrite (not_space_not_tab c H). cbn [translate_ws map].
  rewrite (not_space_not_ws c H). eexists. reflexivity.
Qed.

Lemma expandtabs_from_last (c : ascii) : forall (s : str) line_pos,
  is_char 9 c = false ->
  expandtabs_from 8 line_pos (s ++ [c]) = expandtabs_from 8 line_pos s ++ [c].
Proof.
  induction s as [|a s IH]; intros line_pos H.
  - simpl. now rewrite H.
  - cbn [app expandtabs_from]. destruct (is_char 9 a).
    + change (0 <? 8) with true. cbn iota. rewrite IH by exact H.
      now rewrite app_assoc.
    + rewrite IH by exact H. reflexivity.
Qed.

Lemma munge_last (c : ascii) (s : str) :
  isspace c = false ->
  exists s', munge_whitespace (s ++ [c]) = s' ++ [c].
Proof.
  intros H. unfold munge_whitespace, expandtabs.
  rewrite (expandtabs_from_last c s 0 (not_space_not_tab c H)).
  unfold translate_ws. rewrite map_app. cbn [map].
  rewrite (not_space_not_ws c H). eexists. reflexivity.
Qed.

(** Chunks of a text that starts and ends with characters that are not
    spaces have solid ends. *)
Lemma chunks_head_solid (chunks : list str) (c : ascii) (s : str) :
  concat chunks = c :: s -> Forall (fun x => x <> []) chunks ->
  isspace c = false -> head_solid chunks.
Proof.
  intros Hc Hne Hs. destruct chunks as [|x xs]; [discriminate|].
  inversion Hne as [|x' xs' Hx _]; subst.
  destruct x as [|a x]; [contradiction|].
  simpl in Hc. inversion Hc; subst a. split; [discriminate | exact Hs].
Qed.

Lemma chunks_tail_solid (chunks : list str) (c : ascii) (s : str) :
  concat chunks = s ++ [c] -> Forall (fun x => x <> []) chunks ->
  isspace c = false -> tail_solid chunks.
Proof.
  intros Hc Hne Hs.
  destruct (list_snoc_cases chunks) as [-> | (xs & x & ->)].
  - destruct s; discriminate.
  - apply tail_solid_snoc.
    apply Forall_app in Hne. destruct Hne as [_ Hne].
    inversion Hne as [|x' l' Hx _]; subst. split; [exact Hx|].
    destruct (list_snoc_cases x) as [-> | (y & a & ->)]; [contradiction|].
    rewrite concat_snoc, app_assoc in Hc.
    apply app_inj_tail in Hc. destruct Hc as [_ ->].
    unfold ends_with_space. rewrite rev_app_distr. exact Hs.
Qed.

Lemma split_chunks_solid (s : str) :
  s <> [] -> starts_with_space s = false -> ends_with_space s = false ->
  head_solid (split_chunks s) /\ tail_solid (split_chunks s).
Proof.
  intros Hne Hh Ht. unfold split_chunks.
  destruct (split_concat (munge_whitespace s)) as [Hc Hn].
  split.
  - destruct s as [|c r]; [contradiction|]. simpl in Hh.
    destruct (munge_head c r Hh) as [s' Hm]. rewrite Hm in *.
    now apply (chunks_head_solid _ c s').
  - destruct (list_snoc_cases s) as [-> | (r & c & ->)]; [contradiction|].
    unfold ends_with_space in Ht. rewrite rev_app_distr in Ht. simpl in Ht.
    destruct (munge_last c r Ht) as [s' Hm]. rewrite Hm in *.
    now apply (chunks_tail_solid _ c s').
Qed.

Lemma take_fitting_all (width : nat) : forall chunks cur_line cur_len,
  cur_len + length (concat chunks) <= width ->
  take_fitting width cur_line cur_len chunks
  = (cur_line ++ chunks, cur_len + length (concat chunks), []).
Proof.
  induction chunks as [|c cs IH]; intros cur_line cur_len H.
  - simpl. now rewrite app_nil_r, Nat.add_0_r.
  - cbn [concat] in H. rewrite length_app in H. cbn [take_fitting].
    replace (cur_len + length c <=? width) with true
      by (symmetry; apply Nat.leb_le; lia).
    rewrite IH by lia. cbn [concat]. rewrite length_app, <- app_assoc.
    f_equal. f_equal. lia.
Qed.

(** A text that fits the width and has a solid end is one line. *)
Lemma wrap_chunks_one_line (width : nat) (chunks : list str) :
  chunks <> [] -> tail_solid chunks ->
  length (concat chunks) <= width ->
  0 < width ->
  wrap_chunks width chunks = Ok [concat chunks].
Proof.
  intros Hne Ht Hlen Hw. unfold wrap_chunks.
  replace (width =? 0) with false by (symmetry; apply Nat.eqb_neq; lia).
  destruct chunks as [|c cs]; [contradiction|].
  cbn [wrap_loop]. unfold wrap_line. rewrite andb_false_r.
  rewrite take_fitting_all by lia. cbn [app].
  fold (drop_trailing_blank (c :: cs)).
  assert (Hd : drop_trailing_blank (c :: cs) = c :: cs).
  { destruct (list_snoc_cases (c :: cs)) as [E | (xs & x & E)]; [discriminate|].
    rewrite E in *. rewrite drop_trailing_blank_snoc.
    destruct (proj1 (tail_solid_snoc xs x) Ht) as [Hx1 Hx2].
    now rewrite (solid_not_blank x Hx1 Hx2). }
  rewrite Hd. destruct (weight (c :: cs)); reflexivity.
Qed.

End WrapCount.

(** X15: a text with more characters than the width that neither starts
    nor ends with a space is wrapped into at least two lines. *)
Theorem wrap_long_text_two_lines (width : nat) (s : str) (lines : list str) :
  width < length s ->
  starts_with_space s = false ->
  ends_with_space s = false ->
  TextWrap.wrap width s = Ok lines ->
  2 <= length lines.
Proof.
  intros Hlen Hh Ht H.
  assert (Hw : 0 < width).
  { unfold TextWrap.wrap, TextWrap.wrap_chunks in H.
    destruct (width =? 0) eqn:E; [discriminate|]. apply Nat.eqb_neq in E. lia. }
  assert (Hne : s <> []) by (intros ->; simpl in Hlen; lia).
  destruct (WrapCount.split_chunks_solid s Hne Hh Ht) as [Hhs Hts].
  apply (WrapShape.wrap_chunks_two_lines width (TextWrap.split_chunks s));
    [exact Hw | exact Hhs | exact Hts | | exact H].
  unfold TextWrap.split_chunks.
  rewrite (proj1 (SplitFacts.split_concat _)).
  pose proof (SplitFacts.munge_whitespace_length s). lia.
Qed.

Lemma wrap_long_text_two_lines_witness :
  TextWrap.wrap 30 (lit "The quick brown fox jumps over the lazy sleeping dog")
  = Ok [lit "The quick brown fox jumps over"; lit "the lazy sleeping dog"]
  /\ 2 <= length [lit "The quick brown fox jumps over"; lit "the lazy sleeping dog"].
Proof.
  assert (H : TextWrap.wrap 30 (lit "The quick brown fox jumps over the lazy sleeping dog")
              = Ok [lit "The quick brown fox jumps over"; lit "the lazy sleeping dog"])
    by (vm_compute; reflexivity).
  split; [exact H|].
  apply (wrap_long_text_two_lines 30
           (lit "The quick brown fox jumps over the lazy sleeping dog"));
    [vm_compute; lia | reflexivity | reflexivity | exact H].
Defined.

(** X16: a text without any space character that is not empty and not
    longer than the width is wrapped into one line, the text itself; a URL
    of at most 60 characters is printed on one line. *)
Theorem wrap_short_text_one_line (width : nat) (s : str) :
  s <> [] ->
  Forall (fun c => isspace c = false) s ->
  length s <= width ->
  TextWrap.wrap width s = Ok [s].
Proof.
  intros Hne Hs Hlen. unfold TextWrap.wrap.
  assert (Hw : 0 < width) by (destruct s; [contradiction | simpl in Hlen; lia]).
  assert (Hm : TextWrap.munge_whitespace s = s) by now apply WrapContent.munge_no_space.
  destruct (WrapShape.list_snoc_cases s) as [-> | (r & c & E)]; [contradiction|].
  assert (Hh : starts_with_space s = false)
    by (destruct s as [|a t]; [contradiction | now inversion Hs]).
  assert (Ht : ends_with_space s = false).
  { rewrite E. unfold ends_with_space. rewrite rev_app_distr. simpl.
    rewrite E in Hs. apply Forall_app in Hs. destruct Hs as [_ Hs]. now inversion Hs. }
  destruct (WrapCount.split_chunks_solid s Hne Hh Ht) as [_ Hts].
  assert (Hc : concat (TextWrap.split_chunks s) = s).
  { unfold TextWrap.split_chunks. rewrite Hm. apply SplitFacts.split_concat. }
  rewrite WrapCount.wrap_chunks_one_line; [now rewrite Hc | | exact Hts | rewrite Hc; exact Hlen | exact Hw].
  intros Hnil. rewrite Hnil in Hc. simpl in Hc. apply Hne. now symmetry.
Qed.

Lemma wrap_short_text_one_line_witness :
  TextWrap.wrap 60 (lit "https://example.com/meet") = Ok [lit "https://example.com/meet"].
Proof.
  apply wrap_short_text_one_line;
    [discriminate | repeat constructor | vm_compute; lia].
Defined.

(** ** Wrapping: words *)

Module WrapWords.
Import TextWrap WrapFacts WrapShape SplitFacts.

Lemma words_cons_ws (c : ascii) (s : str) : is_ws c = true -> words (c :: s) = words s.
Proof. intros H. simpl. now rewrite H. Qed.

Lemma words_cons_solid (c : ascii) (s : str) :
  is_ws c = false ->
  words (c :: s)
  = if starts_solid s
    then match words s with
         | wd :: wds => (c :: wd) :: wds
         | [] => [[c]]
         end
    else [c] :: words s.
Proof.
  intros H. cbn [words]. rewrite H. destruct s as [|c' s']; [reflexivity|].
  unfold starts_solid. now destruct (is_ws c').
Qed.

Lemma words_spaces (sp s : str) :
  Forall (fun c => is_ws c = true) sp -> words (sp ++ s) = words s.
Proof.
  induction 1 as [|c sp Hc _ IH]; [reflexivity|].
  cbn [app]. now rewrite words_cons_ws.
Qed.

Lemma words_word (wd s : str) :
  wd <> [] ->
  Forall (fun c => is_ws c = false) wd ->
  starts_solid s = false ->
  words (wd ++ s) = wd :: words s.
Proof.
  intros Hne Hw Hs. induction wd as [|c wd IH]; [contradiction|].
  inversion Hw as [|c' wd' Hc Hwd]; subst.
  cbn [app]. rewrite words_cons_solid by exact Hc.
  destruct wd as [|c2 wd2].
  - simpl. now rewrite Hs.
  - inversion Hwd as [|c2' wd2' Hc2 _]; subst.
    replace (starts_solid ((c2 :: wd2) ++ s)) with true
      by (simpl; now rewrite Hc2).
    rewrite IH; [reflexivity | discriminate | exact Hwd].
Qed.

(** *** Tidy chunks *)

Lemma space_chunk_blank (c : str) : space_chunk c -> blank c = true.
Proof.
  intros [_ H]. unfold blank. apply forallb_forall. rewrite Forall_forall in H.
  intros ch Hin. now apply is_ws_isspace, H.
Qed.

Lemma word_chunk_not_blank (c : str) : word_chunk c -> blank c = false.
Proof.
  intros [Hne H]. destruct c as [|ch c]; [contradiction|].
  inversion H as [|ch' c' Hch _]; subst. simpl. now rewrite Hch.
Qed.

Lemma word_chunk_solid (c : str) :
  word_chunk c -> Forall (fun ch => is_ws ch = false) c.
Proof.
  intros [_ H]. eapply Forall_impl; [|exact H].
  intros ch. apply WrapCount.not_space_not_ws.
Qed.

Lemma space_chunk_starts (c : str) (s : str) :
  space_chunk c -> starts_solid (c ++ s) = false.
Proof.
  intros [Hne H]. destruct c as [|ch c]; [contradiction|].
  inversion H as [|ch' c' Hch _]; subst. simpl. now rewrite Hch.
Qed.

Lemma tidy_words : forall chunks,
  tidy chunks -> words (concat chunks) = filter not_blank chunks.
Proof.
  induction chunks as [|c rest IH]; [reflexivity|].
  intros [Hc Hrest]. cbn [concat filter]. unfold not_blank at 1.
  destruct Hc as [Hsp | [Hwd Hnext]].
  - rewrite (space_chunk_blank c Hsp). cbn [negb].
    rewrite words_spaces by apply Hsp. now apply IH.
  - rewrite (word_chunk_not_blank c Hwd). cbn [negb].
    rewrite words_word; [now rewrite IH | apply Hwd | now apply word_chunk_solid |].
    destruct rest as [|c' rest']; [reflexivity|].
    cbn [concat]. now apply space_chunk_starts.
Qed.

Lemma tidy_app_r : forall xs ys, tidy (xs ++ ys) -> tidy ys.
Proof.
  induction xs as [|x xs IH]; intros ys H; [exact H|].
  apply IH. exact (proj2 H).
Qed.

Lemma tidy_app_l : forall xs ys, tidy (xs ++ ys) -> tidy xs.
Proof.
  induction xs as [|x xs IH]; intros ys H; [exact I|].
  destruct H as [Hx Hrest]. split; [|now apply (IH ys)].
  destruct Hx as [Hsp | [Hwd Hnext]]; [now left | right].
  split; [exact Hwd|]. destruct xs; [exact I | exact Hnext].
Qed.

Lemma filter_not_blank_snoc (xs : list str) (x : str) :
  blank x = true -> filter not_blank (xs ++ [x]) = filter not_blank xs.
Proof.
  intros H. rewrite filter_app. simpl. unfold not_blank at 2. rewrite H.
  apply app_nil_r.
Qed.

Lemma drop_trailing_blank_words (l : list str) :
  tidy l ->
  words (concat (drop_trailing_blank l)) = filter not_blank l.
Proof.
  intros Ht. destruct (list_snoc_cases l) as [-> | (xs & x & ->)]; [reflexivity|].
  rewrite drop_trailing_blank_snoc. destruct (blank x) eqn:E.
  - rewrite filter_not_blank_snoc by exact E.
    apply tidy_words. now apply tidy_app_l in Ht.
  - now apply tidy_words.
Qed.

(** A pass puts whole words on the line. *)
Lemma wrap_line_words (width : nat) (first_line : bool) (c : str) (cs : list str)
    (cur_line chunks' : list str) :
  0 < width ->
  tidy (c :: cs) -> words_fit width (c :: cs) ->
  wrap_line width first_line (c :: cs) = (cur_line, chunks') ->
  tidy chunks' /\ words_fit width chunks'
  /\ words (concat cur_line) ++ filter not_blank chunks' = filter not_blank (c :: cs).
Proof.
  intros Hw Ht Hf H.
  destruct (wrap_line_anatomy _ _ _ _ _ _ Hw H)
    as (taken & chunks2 & cur_line1 & Hch & _ & Hcase & ->).
  assert (H1 : tidy (taken ++ chunks2) /\ words_fit width (taken ++ chunks2)
               /\ filter not_blank (taken ++ chunks2) = filter not_blank (c :: cs)).
  { rewrite <- Hch. destruct (blank c && negb first_line) eqn:Eb;
      [|split; [exact Ht | split; [exact Hf | reflexivity]]].
    apply andb_true_iff in Eb. destruct Eb as [Eb _].
    split; [exact (proj2 Ht)|]. split; [now inversion Hf|].
    cbn [filter]. unfold not_blank at 2. now rewrite Eb. }
  destruct H1 as (Ht1 & Hf1 & Hfilter). rewrite <- Hfilter, filter_app.
  pose proof (tidy_app_l _ _ Ht1) as Htaken.
  pose proof (tidy_app_r _ _ Ht1) as Htail.
  unfold words_fit in Hf1. apply Forall_app in Hf1. destruct Hf1 as [_ Hf2].
  destruct Hcase as [(-> & -> & _) | (c0 & cs0 & e & -> & Hlong & He & _ & _ & -> & ->)].
  - split; [exact Htail|]. split; [exact Hf2|].
    now rewrite drop_trailing_blank_words.
  - inversion Hf2 as [|c0' cs0' Hc0 Hcs0]; subst.
    assert (Hb : blank c0 = true).
    { destruct (blank c0) eqn:E; [reflexivity|]. specialize (Hc0 eq_refl). lia. }
    destruct Htail as [Hkind Htcs0].
    assert (Hsp : space_chunk c0).
    { destruct Hkind as [Hsp | [Hwd _]]; [exact Hsp|].
      rewrite (word_chunk_not_blank c0 Hwd) in Hb. discriminate. }
    assert (Hpiece : blank (firstn e c0) = true).
    { unfold blank. apply forallb_forall. intros ch Hin.
      apply is_ws_isspace. destruct Hsp as [_ Hall]. rewrite Forall_forall in Hall.
      apply Hall. rewrite <- (firstn_skipn e c0). apply in_or_app. now left. }
    assert (Hrest : space_chunk (skipn e c0)).
    { split; [now apply skipn_not_nil|].
      destruct Hsp as [_ Hall]. rewrite Forall_forall in *.
      intros ch Hin. apply Hall. rewrite <- (firstn_skipn e c0).
      apply in_or_app. now right. }
    rewrite drop_trailing_blank_snoc, Hpiece. split; [|split].
    + split; [now left | exact Htcs0].
    + constructor; [|exact Hcs0]. intros Hnb.
      rewrite (space_chunk_blank _ Hrest) in Hnb. discriminate.
    + rewrite tidy_words by exact Htaken. f_equal. cbn [filter].
      unfold not_blank. now rewrite Hb, (space_chunk_blank _ Hrest).
Qed.

Lemma wrap_loop_words (width : nat) : forall fuel lines chunks lines',
  0 < width ->
  tidy chunks -> words_fit width chunks ->
  wrap_loop fuel width lines chunks = Some lines' ->
  concat (map words lines') = concat (map words lines) ++ filter not_blank chunks.
Proof.
  induction fuel as [|fuel IH]; intros lines chunks lines' Hw Ht Hf H.
  - destruct chunks; [|discriminate]. inversion H; subst. now rewrite app_nil_r.
  - destruct chunks as [|c cs]; [inversion H; subst; now rewrite app_nil_r|].
    cbn [wrap_loop] in H.
    destruct (wrap_line width _ (c :: cs)) as [cur_line chunks'] eqn:E.
    destruct (wrap_line_words _ _ _ _ _ _ Hw Ht Hf E) as (Ht' & Hf' & Hsplit).
    apply IH in H; [|exact Hw | exact Ht' | exact Hf'].
    rewrite H, <- Hsplit, app_assoc. f_equal.
    destruct cur_line; [simpl; now rewrite app_nil_r|].
    rewrite map_app, concat_app. simpl. now rewrite app_nil_r.
Qed.

End WrapWords.

(** ** The splitter on plain text *)

Module SplitPlain.
Import TextWrap WrapFacts WrapShape SplitFacts WrapWords.

Lemma emdash_ahead_plain (c : ascii) (r : str) :
  is_hyphen c = false -> emdash_ahead (c :: r) = false.
Proof. intros H. unfold emdash_ahead. simpl. now rewrite H. Qed.

Lemma word_more_plain : forall r before,
  Forall plain_char r -> word_more before r = span_len solid r.
Proof.
  induction r as [|c r IH]; intros before H; [reflexivity|].
  inversion H as [|c' r' [Hh Hc] Hr]; subst.
  cbn [word_more span_len]. rewrite Hh. cbn [andb].
  unfold solid at 1. destruct (is_ws c); [reflexivity|]. cbn [negb].
  rewrite (emdash_ahead_plain c r Hh), andb_false_r.
  now rewrite IH.
Qed.

Lemma match_len_plain (before : str) (c : ascii) (r : str) :
  Forall plain_char (c :: r) ->
  match_len before (c :: r)
  = if is_ws c then span_len is_ws (c :: r) else S (span_len solid r).
Proof.
  intros H. inversion H as [|c' r' [Hh Hc] Hr]; subst.
  unfold match_len. destruct (is_ws c); [reflexivity|].
  rewrite (emdash_ahead_plain c r Hh), andb_false_r.
  now rewrite word_more_plain.
Qed.

Lemma Forall_firstn {A : Type} (P : A -> Prop) (n : nat) (l : list A) :
  Forall P l -> Forall P (firstn n l).
Proof.
  intros H. rewrite <- (firstn_skipn n l) in H. now apply Forall_app in H.
Qed.

Lemma Forall_skipn {A : Type} (P : A -> Prop) (n : nat) (l : list A) :
  Forall P l -> Forall P (skipn n l).
Proof.
  intros H. rewrite <- (firstn_skipn n l) in H. now apply Forall_app in H.
Qed.

(** The first chunk of a text that starts with whitespace is whitespace. *)
Lemma split_from_first_space (fuel : nat) (before : str) (c : ascii) (r : str) :
  length (c :: r) <= fuel ->
  Forall plain_char (c :: r) ->
  is_ws c = true ->
  match split_from fuel before (c :: r) with
  | x :: _ => space_chunk x
  | [] => False
  end.
Proof.
  intros Hf Hp Hc. destruct fuel as [|fuel]; [simpl in Hf; lia|].
  cbn [split_from]. rewrite match_len_plain by exact Hp. rewrite Hc.
  split.
  - simpl. rewrite Hc. discriminate.
  - apply span_len_firstn.
Qed.

(** On plain text every word is one chunk. *)
Lemma split_from_tidy : forall fuel before rest,
  length rest <= fuel ->
  Forall plain_char rest ->
  tidy (split_from fuel before rest).
Proof.
  induction fuel as [|fuel IH]; intros before rest Hf Hp.
  - destruct rest; [exact I | simpl in Hf; lia].
  - destruct rest as [|c r]; [exact I|].
    cbn [split_from]. rewrite match_len_plain by exact Hp.
    pose proof Hp as Hp'. inversion Hp' as [|c' r' [Hh Hc] Hr]; subst.
    destruct (is_ws c) eqn:Ews.
    + split.
      * left. split; [simpl; rewrite Ews; discriminate | apply span_len_firstn].
      * apply IH; [|now apply Forall_skipn].
        rewrite length_skipn. simpl in *. rewrite Ews. lia.
    + cbn [firstn skipn]. split.
      * right. split.
        -- split; [discriminate|]. constructor.
           ++ destruct Hc as [Hc | Hc]; [congruence | exact Hc].
           ++ pose proof (span_len_firstn solid r) as Hs.
              rewrite Forall_forall in *. intros ch Hin.
              specialize (Hs ch Hin). unfold solid in Hs.
              apply negb_true_iff in Hs.
              assert (Hin' : In ch r).
              { rewrite <- (firstn_skipn (span_len solid r) r).
                apply in_or_app. now left. }
              destruct (Hr ch Hin') as [_ [Hw | Hw]]; [congruence | exact Hw].
        -- pose proof (span_len_skipn solid r) as Hs.
           destruct (skipn (span_len solid r) r) as [|c2 r2] eqn:Es.
           ++ destruct fuel; exact I.
           ++ unfold solid in Hs. apply negb_false_iff in Hs.
              assert (Hp2 : Forall plain_char (c2 :: r2))
                by (rewrite <- Es; now apply Forall_skipn).
              assert (Hlen : length (c2 :: r2) <= fuel)
                by (rewrite <- Es, length_skipn; simpl in Hf; lia).
              pose proof (split_from_first_space fuel
                            (rev (c :: firstn (span_len solid r) r) ++ before)
                            c2 r2 Hlen Hp2 Hs) as Hfirst.
              destruct (split_from fuel _ (c2 :: r2)); [contradiction | exact Hfirst].
      * apply IH; [|now apply Forall_skipn].
        rewrite length_skipn. simpl in Hf. lia.
Qed.

Lemma split_tidy (s : str) : Forall plain_char s -> tidy (split s).
Proof. intros H. now apply split_from_tidy. Qed.

(** *** Munging keeps the words *)

Lemma plain_space : plain_char SPACE.
Proof. split; [reflexivity | now left]. Qed.

Lemma munge_from_plain : forall (s : str) line_pos,
  Forall plain_char s ->
  Forall plain_char (translate_ws (expandtabs_from 8 line_pos s)).
Proof.
  induction s as [|c rest IH]; intros line_pos H; [constructor|].
  inversion H as [|c' rest' Hc Hrest]; subst.
  cbn [expandtabs_from]. destruct (is_char 9 c).
  - change (0 <? 8) with true. cbn iota. unfold translate_ws. rewrite map_app.
    apply Forall_app. split; [|now apply IH].
    induction (8 - line_pos mod 8) as [|n IHn]; [constructor|].
    constructor; [exact plain_space | exact IHn].
  - cbn [translate_ws map]. constructor; [|now apply IH].
    destruct (is_ws c); [exact plain_space | exact Hc].
Qed.

Lemma translate_ws_starts (s : str) :
  starts_solid (translate_ws s) = starts_solid s.
Proof.
  destruct s as [|c s]; [reflexivity|]. simpl.
  destruct (is_ws c) eqn:E; [reflexivity | now rewrite E].
Qed.

Lemma expandtabs_from_starts (s : str) (line_pos : nat) :
  starts_solid (translate_ws (expandtabs_from 8 line_pos s)) = starts_solid s.
Proof.
  destruct s as [|c s]; [reflexivity|].
  cbn [expandtabs_from]. destruct (is_char 9 c) eqn:Et.
  - change (0 <? 8) with true. cbn iota.
    assert (Hpos : exists n, 8 - line_pos mod 8 = S n).
    { assert (line_pos mod 8 < 8) by (apply Nat.mod_upper_bound; lia).
      exists (8 - line_pos mod 8 - 1). lia. }
    destruct Hpos as [n ->]. simpl. now rewrite (is_ws_tab c Et).
  - simpl. destruct (is_ws c) eqn:E; [reflexivity | now rewrite E].
Qed.

Lemma munge_from_words : forall (s : str) line_pos,
  words (translate_ws (expandtabs_from 8 line_pos s)) = words s.
Proof.
  induction s as [|c rest IH]; intros line_pos; [reflexivity|].
  destruct (is_ws c) eqn:Ews.
  - rewrite (words_cons_ws c rest Ews).
    cbn [expandtabs_from]. destruct (is_char 9 c).
    + change (0 <? 8) with true. cbn iota. unfold translate_ws. rewrite map_app.
      rewrite words_spaces; [apply IH|].
      induction (8 - line_pos mod 8) as [|n IHn]; [constructor|].
      constructor; [reflexivity | exact IHn].
    + cbn [translate_ws map]. rewrite Ews.
      rewrite words_cons_ws by reflexivity. apply IH.
  - assert (Et : is_char 9 c = false).
    { destruct (is_char 9 c) eqn:E; [|reflexivity]. apply is_ws_tab in E. congruence. }
    cbn [expandtabs_from]. rewrite Et. cbn [translate_ws map]. rewrite Ews.
    rewrite !words_cons_solid by exact Ews.
    fold (translate_ws (expandtabs_from 8
            (if is_char 10 c || is_char 13 c then 0 else S line_pos) rest)).
    now rewrite expandtabs_from_starts, IH.
Qed.

Lemma munge_words (s : str) : words (munge_whitespace s) = words s.
Proof. apply munge_from_words. Qed.

Lemma munge_plain (s : str) : Forall plain_char s -> Forall plain_char (munge_whitespace s).
Proof. apply munge_from_plain. Qed.

(** The chunks of a plain text: tidy, and their words are the words of the
    text. *)
Lemma split_chunks_plain (s : str) :
  Forall plain_char s ->
  tidy (split_chunks s)
  /\ filter not_blank (split_chunks s) = words s.
Proof.
  intros H. unfold split_chunks.
  pose proof (split_tidy _ (munge_plain s H)) as Ht.
  split; [exact Ht|].
  rewrite <- (tidy_words _ Ht), (proj1 (split_concat _)). apply munge_words.
Qed.

End SplitPlain.

(** [plain_char] can be checked by computation. *)
Lemma plain_char_check (s : str) :
  forallb (fun c => negb (TextWrap.is_hyphen c)
                    && (TextWrap.is_ws c || negb (isspace c))) s = true ->
  Forall plain_char s.
Proof.
  intros H. apply Forall_forall. intros c Hin.
  rewrite forallb_forall in H. specialize (H c Hin).
  apply andb_true_iff in H. destruct H as [H1 H2].
  apply negb_true_iff in H1. apply orb_true_iff in H2.
  split; [exact H1|]. destruct H2 as [H2 | H2]; [now left | right].
  now apply negb_true_iff in H2.
Qed.

(** X17: in a text without hyphens (and without space characters other
    than the usual whitespace) whose words are not longer than the width,
    wrapping splits no word and loses none: the words of the lines, line
    after line, are the words of the text.  Lines therefore break at
    whitespace only. *)
Theorem wrap_keeps_words (width : nat) (s : str) (lines : list str) :
  Forall plain_char s ->
  Forall (fun wd => length wd <= width) (words s) ->
  TextWrap.wrap width s = Ok lines ->
  concat (map words lines) = words s.
Proof.
  intros Hp Hfit H.
  destruct (SplitPlain.split_chunks_plain s Hp) as [Ht Hw].
  unfold TextWrap.wrap, TextWrap.wrap_chunks in H.
  destruct (width =? 0) eqn:Ew; [discriminate|]. apply Nat.eqb_neq in Ew.
  destruct (TextWrap.wrap_loop _ _ _ _) as [lines0|] eqn:E; [|discriminate].
  inversion H; subst lines0. clear H.
  apply WrapWords.wrap_loop_words in E; [now rewrite E, Hw | lia | exact Ht |].
  unfold words_fit. apply Forall_forall. intros x Hin Hb.
  rewrite Forall_forall in Hfit. apply Hfit. rewrite <- Hw.
  apply filter_In. split; [exact Hin|]. unfold not_blank. now rewrite Hb.
Qed.

Lemma wrap_keeps_words_witness :
  TextWrap.wrap 30 (lit "The quick brown fox jumps over the lazy sleeping dog")
  = Ok [lit "The quick brown fox jumps over"; lit "the lazy sleeping dog"]
  /\ concat (map words [lit "The quick brown fox jumps over"; lit "the lazy sleeping dog"])
     = words (lit "The quick brown fox jumps over the lazy sleeping dog").
Proof.
  assert (H : TextWrap.wrap 30 (lit "The quick brown fox jumps over the lazy sleeping dog")
              = Ok [lit "The quick brown fox jumps over"; lit "the lazy sleeping dog"])
    by (vm_compute; reflexivity).
  split; [exact H|].
  apply (wrap_keeps_words 30
           (lit "The quick brown fox jumps over the lazy sleeping dog")); [| |exact H].
  - apply plain_char_check. vm_compute. reflexivity.
  - vm_compute. repeat constructor.
Defined.

(** ** Wrapping: long words *)

Module LongWord.
Import TextWrap WrapFacts WrapShape SplitFacts.

Lemma unbreakable_plain (s : str) : Forall unbreakable_char s -> Forall plain_char s.
Proof.
  intros H. eapply Forall_impl; [|exact H].
  intros c [H1 H2]. split; [exact H2 | now right].
Qed.

Lemma unbreakable_no_space (s : str) :
  Forall unbreakable_char s -> Forall (fun c => isspace c = false) s.
Proof. intros H. eapply Forall_impl; [|exact H]. now intros c [H1 _]. Qed.

Lemma span_len_all (p : ascii -> bool) (s : str) :
  Forall (fun c => p c = true) s -> span_len p s = length s.
Proof.
  induction 1 as [|c s Hc _ IH]; simpl; [reflexivity|]. now rewrite Hc, IH.
Qed.

(** A word is one chunk. *)
Lemma split_word (s : str) :
  s <> [] -> Forall unbreakable_char s -> split s = [s].
Proof.
  intros Hne H. destruct s as [|c r]; [contradiction|].
  unfold split. cbn [length split_from].
  rewrite SplitPlain.match_len_plain by now apply unbreakable_plain.
  inversion H as [|c' r' [Hc _] Hr]; subst.
  rewrite (WrapCount.not_space_not_ws c Hc).
  rewrite (span_len_all solid r).
  - cbn [firstn skipn]. rewrite firstn_all, skipn_all.
    destruct (length r); reflexivity.
  - eapply Forall_impl; [|exact Hr]. intros ch [Hch _].
    unfold solid. now rewrite (WrapCount.not_space_not_ws ch Hch).
Qed.

Lemma rfind_from_none : forall (s : str) i,
  Forall (fun c => is_hyphen c = false) s -> rfind_from i s = None.
Proof.
  induction s as [|c s IH]; intros i H; [reflexivity|].
  inversion H as [|c' s' Hc Hs]; subst. simpl. now rewrite IH, Hc.
Qed.

Lemma break_point_word (x : str) (width : nat) :
  Forall unbreakable_char x -> break_point x width = width.
Proof.
  intros H. unfold break_point. destruct (width <? length x); [|reflexivity].
  unfold rfind_hyphen. rewrite rfind_from_none; [reflexivity|].
  apply SplitPlain.Forall_firstn. eapply Forall_impl; [|exact H]. now intros c [_ Hc].
Qed.

Lemma word_not_blank (x : str) :
  x <> [] -> Forall unbreakable_char x -> blank x = false.
Proof.
  intros Hne H. destruct x as [|c x]; [contradiction|].
  inversion H as [|c' x' [Hc _] _]; subst. simpl. now rewrite Hc.
Qed.

(** The passes over one long word. *)
Lemma wrap_loop_word (width : nat) : forall n x lines fuel,
  0 < width ->
  length x <= n -> x <> [] -> Forall unbreakable_char x ->
  weight [x] < fuel ->
  wrap_loop fuel width lines [x] = Some (lines ++ cut n width x).
Proof.
  induction n as [|n IH]; intros x lines fuel Hw Hn Hne Hx Hf.
  - destruct x; [contradiction | simpl in Hn; lia].
  - destruct fuel as [|fuel]; [lia|].
    cbn [wrap_loop]. unfold wrap_line.
    rewrite (word_not_blank x Hne Hx). cbn [andb take_fitting Nat.add].
    destruct x as [|c r]; [contradiction|]. cbn [cut].
    destruct (length (c :: r) <=? width) eqn:El.
    + cbn [rev app]. rewrite (word_not_blank (c :: r) Hne Hx).
      cbn [concat]. rewrite app_nil_r. now destruct fuel.
    + apply Nat.leb_gt in El.
      replace (width <? length (c :: r)) with true
        by (symmetry; apply Nat.ltb_lt; lia).
      unfold handle_long_word.
      replace (width <? 1) with false by (symmetry; apply Nat.ltb_ge; lia).
      rewrite Nat.sub_0_r, (break_point_word (c :: r) width Hx).
      cbn [app rev].
      assert (Hpiece : firstn width (c :: r) <> [])
        by (destruct width; [lia | discriminate]).
      rewrite (word_not_blank _ Hpiece (SplitPlain.Forall_firstn _ _ _ Hx)).
      cbn [concat]. rewrite app_nil_r.
      assert (Hrest : skipn width (c :: r) <> []) by (apply skipn_not_nil; lia).
      rewrite (IH (skipn width (c :: r))); [now rewrite <- app_assoc | exact Hw | |
                 exact Hrest | now apply SplitPlain.Forall_skipn |].
      * rewrite length_skipn. lia.
      * pose proof (weight_cons (c :: r) []) as W1.
        pose proof (weight_cons (skipn width (c :: r)) []) as W2.
        change (weight []) with 0 in W1, W2. rewrite length_skipn in W2. lia.
Qed.

End LongWord.

(** X19: a word that the wrapper can only break by length (no space, no
    hyphen) is cut every [width] characters: when it is longer than the
    width, the lines are its successive pieces of [width] characters and a
    last, possibly shorter one.  A long URL without hyphens is printed in
    lines of exactly 60 characters, whatever it spells. *)
Theorem wrap_cuts_long_word (width : nat) (s : str) :
  0 < width ->
  s <> [] ->
  Forall unbreakable_char s ->
  TextWrap.wrap width s = Ok (cut (length s) width s).
Proof.
  intros Hw Hne Hs. unfold TextWrap.wrap, TextWrap.split_chunks.
  rewrite (WrapContent.munge_no_space s (LongWord.unbreakable_no_space s Hs)).
  rewrite (LongWord.split_word s Hne Hs). unfold TextWrap.wrap_chunks.
  replace (width =? 0) with false by (symmetry; apply Nat.eqb_neq; lia).
  now rewrite (LongWord.wrap_loop_word width (length s) s [] _ Hw (le_n _) Hne Hs
                 (Nat.lt_succ_diag_r _)).
Qed.

Lemma wrap_cuts_long_word_witness :
  TextWrap.wrap 30 (repeat "a"%char 31) = Ok [repeat "a"%char 30; lit "a"].
Proof.
  apply (wrap_cuts_long_word 30 (repeat "a"%char 31));
    [lia | discriminate | repeat constructor].
Defined.

(** ** Title wrapping *)




(** ** What the composer is called with *)

Lemma dropwhile_keeps_last (p : ascii -> bool) (c : ascii) : forall l,
  p c = false -> exists pre, dropwhile p (l ++ [c]) = pre ++ [c].
Proof.
  induction l as [|a l IH]; intros H.
  - exists []. simpl. now rewrite H.
  - simpl. destruct (p a); [now apply IH | now exists (a :: l)].
Qed.

Lemma strip_trimmed (s : str) : trimmed (strip s).
Proof.
  unfold trimmed, strip. split; [|apply rstrip_no_trailing_space].
  unfold lstrip. pose proof (dropwhile_head isspace s) as Hh.
  destruct (dropwhile isspace s) as [|c t]; [reflexivity|].
  unfold rstrip. change (rev (c :: t)) with (rev t ++ [c]).
  destruct (dropwhile_keeps_last isspace c (rev t) Hh) as [pre ->].
  rewrite rev_app_distr. exact Hh.
Qed.

Lemma process_entries_calls_trimmed (w : World) (save_to_dir : str)
    (font_path : option str) :
  forall entries index,
    Forall (fun call => trimmed (fst call) /\ trimmed (snd call) /\ snd call <> [])
           (calls (fst (process_entries w save_to_dir font_path index entries []))).
Proof.
  induction entries as [|entry rest IH]; intros index; [constructor|].
  cbn [process_entries].
  destruct entry as [|title0 [|url0 more]];
    try (rewrite process_entries_log; cbn [fst]; rewrite calls_app; apply IH).
  destruct (strip url0) as [|u us] eqn:Eu.
  - rewrite process_entries_log. cbn [fst]. rewrite calls_app. apply IH.
  - assert (Hcall : trimmed (strip title0) /\ trimmed (u :: us) /\ u :: us <> []).
    { rewrite <- Eu. repeat split; try apply strip_trimmed. rewrite Eu. discriminate. }
    destruct (create_full_page_image _ _ _ _ _) as [img|e];
      [destruct (save_png _ _ _)|].
    + rewrite process_entries_log. cbn [fst]. rewrite calls_app.
      cbn [app calls flat_map]. constructor; [exact Hcall | apply IH].
    + cbn [fst]. rewrite calls_app. cbn [app calls flat_map].
      constructor; [exact Hcall | constructor].
    + cbn [fst]. rewrite calls_app. cbn [app calls flat_map].
      constructor; [exact Hcall | constructor].
Qed.

(** X20: in every run of [process_csv] the composer is called with a
    title and a URL that have no space at either end, and never with an
    empty URL; the QR library is therefore never asked to encode the empty
    payload by a batch. *)
Theorem process_csv_calls_trimmed (w : World) (entries : list (list str))
    (save_to_dir font_path : str) :
  Forall (fun call => trimmed (fst call) /\ trimmed (snd call) /\ snd call <> [])
         (calls (fst (process_csv w entries save_to_dir font_path))).
Proof. apply process_entries_calls_trimmed. Qed.

(** ** The URL lines and the side margins *)

Section UrlMargins.

Local Open Scope Z_scope.

Variable w : World.
Variable font_path : option str.

Lemma draw_lines_centred (font : Font) (page_width gap : Z) : forall lines current_y,
  Forall (fun d => twice_x d = page_width - line_width font (text d))
         (fst (draw_lines font page_width gap current_y lines)).
Proof.
  induction lines as [|line rest IH]; intros current_y; [constructor|].
  cbn [draw_lines]. specialize (IH (current_y + (line_height font line + gap))).
  destruct (draw_lines _ _ _ _ rest) as [ds y']. cbn [fst] in *.
  constructor; [reflexivity | exact IH].
Qed.

(** The result of the loop from 80: the lines fit, or the size is 40. *)
Lemma fit_url_result (url : str) (max_text_width font_size : Z) (lines : list str) :
  fit_url w font_path url max_text_width 80 = Ok (font_size, lines) ->
  Forall (fun line => line_width (get_font w font_path font_size) line <= max_text_width)
         lines
  \/ font_size = 40.
Proof.
  intros H.
  destruct (WrapFacts.wrap_total 60 url) as (lines0 & Hwrap & _); [lia|].
  destruct (fit_loop_from_80 w font_path url max_text_width lines0 Hwrap)
    as (k & Hk & _ & Hstop & Hrun).
  unfold fit_url in H. rewrite Hwrap in H. cbn [bind] in H.
  change (passes_from 80) with 21%nat in H.
  rewrite (proj1 (Hrun 21%nat)) in H by lia.
  assert (Hs : font_size = 80 - 2 * Z.of_nat k) by congruence.
  assert (Hl : lines0 = lines) by congruence.
  subst font_size lines0. unfold stops in Hstop.
  apply lines_fit_true in Hstop. destruct Hstop as [Hfit | Hfloor];
    [now left | right; lia].
Qed.

(** X21: every URL line is drawn centred in the final font, and when the
    shrink loop ends above the floor of 40 every URL line lies within the
    side margins: it starts at least 300 pixels from the left edge and ends
    at least 300 pixels from the right edge. *)
Theorem url_lines_within_margins (title url : str) (page_size : Z * Z) (page : Page) :
  create_full_page_image w font_path title url page_size = Ok page ->
  let font := get_font w font_path (url_font_size page) in
  Forall (fun d => twice_x d = fst page_size - line_width font (text d)) (url_lines page)
  /\ (url_font_size page <> 40 ->
      Forall (fun d => 2 * 300 <= twice_x d
                       /\ twice_x d + 2 * line_width font (text d)
                          <= 2 * (fst page_size - 300))
             (url_lines page)).
Proof.
  intros H.
  destruct (compose_inversion w font_path title url page_size page H)
    as (title_wrapped & img & font_size & url_wrapped & _ & _ & Hfit & ->).
  cbn zeta. cbn [url_font_size url_lines].
  split; [apply draw_lines_centred|]. intros Hsize.
  apply fit_url_result in Hfit. destruct Hfit as [Hfit | Hfloor]; [|contradiction].
  match goal with
  | |- Forall _ (fst (draw_lines ?f ?pw ?g ?y0 ?ls)) =>
      pose proof (draw_lines_centred f pw g ls y0) as Hc;
      pose proof (draw_lines_text f pw g ls y0) as Ht;
      set (drawn := fst (draw_lines f pw g y0 ls)) in *
  end.
  apply Forall_forall. intros d Hin.
  rewrite Forall_forall in Hc, Hfit. specialize (Hc d Hin).
  assert (Hline : In (text d) url_wrapped)
    by (rewrite <- Ht; now apply in_map).
  specialize (Hfit (text d) Hline). cbn beta in *. lia.
Qed.

End UrlMargins.

Lemma url_lines_within_margins_witness :
  exists page,
    create_full_page_image example_world (Some (lit "font.ttf")) (lit "Team Meeting")
      (lit "https://example.com/a/long/path/that/fills/sixty/characters/") letter_page
    = Ok page
    /\ url_font_size page = 64%Z
    /\ Forall (fun d => (600 <= twice_x d)%Z) (url_lines page).
Proof.
  eexists. split; [vm_compute; reflexivity|]. split; [reflexivity|].
  pose proof (url_lines_within_margins example_world (Some (lit "font.ttf"))
                (lit "Team Meeting")
                (lit "https://example.com/a/long/path/that/fills/sixty/characters/")
                letter_page _ eq_refl) as [_ H].
  specialize (H ltac:(vm_compute; discriminate)).
  eapply Forall_impl; [|exact H]. cbn beta. intros d [Hd _]. exact Hd.
Defined.
